(** * shared/run_diff.go: the results diff of two wpt.fyi runs

    A shallow embedding of [GetResultsDiff] and [anyPathMatches] and the
    properties of the diff they compute.

    Conventions of the embedding.
    - Go's [int] is the 64-bit two's complement integer of the platforms
      wpt.fyi runs on: a [Z] inside [int_min, int_max], every arithmetic
      result wrapped by [wrap].
    - A slice [[]int] is a [list Z]; indexing is list lookup, and an index
      out of range is a run-time panic, modelled by [None] in the [option]
      monad.
    - A Go map is a [gmap]; reading a nil map behaves like reading an empty
      one, so [before] and [after] are plain maps.  [renames] and [paths] are
      compared with nil by the code and are therefore optional.
    - [range] over a Go map visits the entries in an unspecified order.  The
      loops are folds over a list of entries, and every statement about the
      result quantifies over all lists that enumerate the map
      ([iteration_order]). *)

From Stdlib Require Import ZArith String Ascii List Bool.
From stdpp Require Import base option list gmap strings fin_maps.

Local Open Scope Z_scope.

(** ** Go integers *)

Module GoInt.

Definition int_bits : Z := 64.
Definition int_modulus : Z := 2 ^ int_bits.
Definition int_min : Z := - 2 ^ (int_bits - 1).
Definition int_max : Z := 2 ^ (int_bits - 1) - 1.

(** The values an [int] variable can hold. *)
Definition is_int (z : Z) : Prop := int_min ≤ z ≤ int_max.

(** Two's complement wrap-around of a mathematical result. *)
Definition wrap (z : Z) : Z := (z - int_min) mod int_modulus + int_min.

(** [x - y] on [int]. *)
Definition sub (x y : Z) : Z := wrap (x - y).

(** [-x] on [int]. *)
Definition neg (x : Z) : Z := wrap (- x).

End GoInt.

(** ** Data *)

(** [map[string][]int]: test name to [count-passed, total]. *)
Abbreviation ResultSet := (gmap string (list Z)).

(** [map[string][]int]: test name to
    [newly-passing, newly-failing, total-delta]. *)
Abbreviation DiffResult := (gmap string (list Z)).

(** Modelled from the spec: the type [DiffFilterParam] is declared outside
    run_diff.go; the spec gives it as four independent boolean flags
    [Added], [Deleted], [Changed], [Unchanged]. *)
Record DiffFilterParam : Type := mkDiffFilterParam
  { Added : bool; Deleted : bool; Changed : bool; Unchanged : bool }.

(** A possible order in which [range m] visits the entries of [m]. *)
Definition iteration_order {V : Type} (m : gmap string V) (l : list (string * V)) : Prop :=
  l ≡ₚ map_to_list m.


(** Every result array has the two elements [count-passed, total]. *)
Definition structurally_valid (m : ResultSet) : Prop :=
  map_Forall (λ _ (v : list Z), (2 ≤ length v)%nat) m.

(** ** strings.Index and anyPathMatches *)

(** [strings.Index(s, substr)]: the index of the first instance of [substr]
    in [s], or -1. *)
Definition strings_Index (s substr : string) : Z :=
  match String.index 0 substr s with
  | Some n => Z.of_nat n
  | None => -1
  end.

(** The loop of [anyPathMatches] over the elements the set's iterator
    yields, in the order it yields them. *)
Fixpoint anyPathMatches_iter (elems : list string) (testPath : string) : bool :=
  match elems with
  | [] => false
  | path :: rest =>
      if bool_decide (strings_Index testPath path = 0) then true
      else anyPathMatches_iter rest testPath
  end.

(** Lines 181-191.  [paths] is a [mapset.Set]; [None] is the nil set.  Its
    elements are the path prefixes, which every caller gives as strings, so
    the assertion [path.(string)] is the identity and the set is a
    [gset string]. *)
Definition anyPathMatches (paths : option (gset string)) (testPath : string) : bool :=
  match paths with
  | None => true
  | Some ps => anyPathMatches_iter (elements ps) testPath
  end.

(** [p] is a literal, byte-wise prefix of [t]. *)
Definition is_prefix_of (p t : string) : Prop := ∃ rest, t = p +:+ rest.

(** ** GetResultsDiff *)

Section GetResultsDiff.

Context (before after : ResultSet).
Context (filter : DiffFilterParam).
Context (paths : option (gset string)).
Context (renames : option (gmap string string)).

(** Lines 107-112: the name under which a test of [before] is looked up
    and reported. *)
Definition renamed_test (test : string) : string :=
  match renames with
  | Some rn =>
      match rn !! test with
      | Some rename => rename
      | None => test
      end
  | None => test
  end.

(** Lines 158-163: the search through the entries of [renames], in the
    order the map yields them, for one whose value is [test]. *)
Fixpoint rename_target_iter (entries : list (string * string)) (test : string) : bool :=
  match entries with
  | [] => false
  | (_, is_) :: rest =>
      if bool_decide (is_ = test) then true
      else rename_target_iter rest test
  end.

(** Lines 156-167: the flag [renamed] of the code when the search is
    left; false when [renames] is nil. *)
Definition is_rename_target (test : string) : bool :=
  match renames with
  | Some rn => rename_target_iter (map_to_list rn) test
  | None => false
  end.

(** Line 129: [delta != 0 || resultsBefore[1] != resultsAfter[1]]; the
    right operand is evaluated only when the left one is false. *)
Definition changed_of (delta : Z) (resultsBefore resultsAfter : list Z) : option bool :=
  if bool_decide (delta ≠ 0) then Some true
  else
    b1 ← resultsBefore !! 1%nat;
    a1 ← resultsAfter !! 1%nat;
    Some (bool_decide (b1 ≠ a1)).

(** Lines 107-150: one iteration of the loop over [before]. *)
Definition before_body (test : string) (resultsBefore : list Z)
    (diff : DiffResult) : option DiffResult :=
  let test := renamed_test test in
  if negb (anyPathMatches paths test) then Some diff
  else
    match after !! test with
    | None =>
        if negb (Deleted filter) then Some diff
        else
          b1 ← resultsBefore !! 1%nat;
          Some (<[test := [0; 0; GoInt.neg b1]]> diff)
    | Some resultsAfter =>
        if negb (Changed filter) && negb (Unchanged filter) then Some diff
        else
          b0 ← resultsBefore !! 0%nat;
          a0 ← resultsAfter !! 0%nat;
          let delta := GoInt.sub b0 a0 in
          changed ← changed_of delta resultsBefore resultsAfter;
          if (negb changed && negb (Unchanged filter))
             || (changed && negb (Changed filter))
          then Some diff
          else
            let d := GoInt.sub a0 b0 in
            let improved := if bool_decide (d > 0) then d else 0 in
            b1 ← resultsBefore !! 1%nat;
            let failingBefore := GoInt.sub b1 b0 in
            a1 ← resultsAfter !! 1%nat;
            let failingAfter := GoInt.sub a1 a0 in
            let d := GoInt.sub failingAfter failingBefore in
            let regressed := if bool_decide (d > 0) then d else 0 in
            Some (<[test := [improved; regressed; GoInt.sub a1 b1]]> diff)
    end.

(** Lines 155-175: one iteration of the loop over [after]. *)
Definition after_body (test : string) (resultsAfter : list Z)
    (diff : DiffResult) : option DiffResult :=
  if is_rename_target test then Some diff
  else if negb (anyPathMatches paths test) then Some diff
  else
    match before !! test with
    | None =>
        a0 ← resultsAfter !! 0%nat;
        a1 ← resultsAfter !! 1%nat;
        Some (<[test := [a0; GoInt.sub a1 a0; a1]]> diff)
    | Some _ => Some diff
    end.

(** [for test, results := range m { body }] over the entries in the order
    [entries]; a panic in one iteration ends the loop. *)
Fixpoint range_loop (body : string → list Z → DiffResult → option DiffResult)
    (entries : list (string * list Z)) (diff : DiffResult) : option DiffResult :=
  match entries with
  | [] => Some diff
  | (test, results) :: rest =>
      diff' ← body test results diff;
      range_loop body rest diff'
  end.

(** Lines 105-152: the diff after the first pass. *)
Definition before_pass (ob : list (string * list Z)) : option DiffResult :=
  if Deleted filter || Changed filter
  then range_loop before_body ob ∅
  else Some ∅.

(** Lines 153-177: the second pass, from the diff the first one left. *)
Definition after_pass (oa : list (string * list Z)) (d : DiffResult) : option DiffResult :=
  if Added filter
  then range_loop after_body oa d
  else Some d.

(** Lines 104-178, with the two maps visited in the orders [ob] and
    [oa]. *)
Definition GetResultsDiff_in (ob oa : list (string * list Z)) : option DiffResult :=
  let diff : DiffResult := ∅ in
  diff ← (if Deleted filter || Changed filter
          then range_loop before_body ob diff else Some diff);
  diff ← (if Added filter
          then range_loop after_body oa diff else Some diff);
  Some diff.

(** No other test of [before] is reported under the name of [test]. *)
Definition sole_source (test : string) : Prop :=
  map_Forall (λ t (_ : list Z), t ≠ test → renamed_test t ≠ renamed_test test) before.

(** The run that visits both maps in the order of [map_to_list]. *)
Definition GetResultsDiff : option DiffResult :=
  GetResultsDiff_in (map_to_list before) (map_to_list after).

End GetResultsDiff.

#[global] Instance structurally_valid_dec (m : ResultSet) :
  Decision (structurally_valid m).
Proof. unfold structurally_valid. apply _. Defined.

#[global] Instance sole_source_dec (before : ResultSet)
    (renames : option (gmap string string)) (test : string) :
  Decision (sole_source before renames test).
Proof. unfold sole_source. apply _. Defined.

(** ** abs and max *)

(** Lines 193-198. *)
Definition abs (x : Z) : Z :=
  if bool_decide (x < 0) then GoInt.neg x else x.

(** Lines 200-205. *)
Definition max (x y : Z) : Z :=
  if bool_decide (x < y) then y else x.

(** ** Reading the loops entry by entry *)

(** [diff[key] = e] when an iteration writes, the diff as it is when it
    does not. *)
Definition emit (key : string) (o : option (list Z)) (diff : DiffResult) : DiffResult :=
  match o with
  | Some e => <[key := e]> diff
  | None => diff
  end.

(** What the iteration of [before_body] for [test] leaves under the name
    of [test] when it starts from the empty diff: [None] when it panics,
    [Some None] when it writes nothing. *)
Definition before_entry (after : ResultSet) (filter : DiffFilterParam)
    (paths : option (gset string)) (renames : option (gmap string string))
    (test : string) (resultsBefore : list Z) : option (option (list Z)) :=
  (λ diff : DiffResult, diff !! renamed_test renames test)
    <$> before_body after filter paths renames test resultsBefore ∅.

(** The same for [after_body]. *)
Definition after_entry (before : ResultSet)
    (paths : option (gset string)) (renames : option (gmap string string))
    (test : string) (resultsAfter : list Z) : option (option (list Z)) :=
  (λ diff : DiffResult, diff !! test)
    <$> after_body before paths renames test resultsAfter ∅.

(** The entries of a diff under the names that the scope [ps] matches. *)
Definition in_scope (ps : gset string) (diff : DiffResult) : DiffResult :=
  filter (λ kv : string * list Z, anyPathMatches (Some ps) kv.1 = true) diff.

(** Two tests of [before] are never reported under one name. *)
Definition injective_renames (before : ResultSet)
    (renames : option (gmap string string)) : Prop :=
  map_Forall (λ t (_ : list Z), sole_source before renames t) before.

#[global] Instance injective_renames_dec (before : ResultSet)
    (renames : option (gmap string string)) :
  Decision (injective_renames before renames).
Proof. unfold injective_renames. apply _. Defined.

(** The entry of one test name, computed from what the two result sets have
    under that name, as lines 117-150 and 172-175 compute it. *)
Definition diff_entry (filter : DiffFilterParam)
    (resultsBefore resultsAfter : option (list Z)) : option (list Z) :=
  match resultsBefore, resultsAfter with
  | Some (_ :: b1 :: _), None =>
      if Deleted filter then Some [0; 0; GoInt.neg b1] else None
  | Some (b0 :: b1 :: _), Some (a0 :: a1 :: _) =>
      let changed := bool_decide (GoInt.sub b0 a0 ≠ 0 ∨ b1 ≠ a1) in
      if (Deleted filter || Changed filter)
         && ((changed && Changed filter) || (negb changed && Unchanged filter))
      then Some [Z.max 0 (GoInt.sub a0 b0);
                 Z.max 0 (GoInt.sub (GoInt.sub a1 a0) (GoInt.sub b1 b0));
                 GoInt.sub a1 b1]
      else None
  | None, Some (a0 :: a1 :: _) =>
      if Added filter then Some [a0; GoInt.sub a1 a0; a1] else None
  | _, _ => None
  end.

(** Counts as the result files have them: [0 ≤ passed ≤ total], the total
    an [int]. *)
Definition counts_ok (v : list Z) : Prop :=
  match v with
  | pass :: total :: _ => 0 ≤ pass ≤ total ∧ total ≤ GoInt.int_max
  | _ => False
  end.

#[global] Instance counts_ok_dec (v : list Z) : Decision (counts_ok v).
Proof. unfold counts_ok. destruct v as [|p [|t v]]; apply _. Defined.

Definition valid_counts (m : ResultSet) : Prop :=
  map_Forall (λ _ v, counts_ok v) m.

#[global] Instance valid_counts_dec (m : ResultSet) : Decision (valid_counts m).
Proof. unfold valid_counts. apply _. Defined.

(** A diff entry [improved; regressed; delta] whose first two counts are
    not negative and bound the delta. *)
Definition entry_ok (e : list Z) : Prop :=
  match e with
  | [improved; regressed; delta] =>
      0 ≤ improved ∧ 0 ≤ regressed ∧ delta ≤ improved + regressed
  | _ => False
  end.

(** The sum of the elements at index [i] of the arrays of a map (0 for an
    array without that index). *)
Definition column_sum (i : nat) (m : gmap string (list Z)) : Z :=
  map_fold (λ _ v acc, acc + default 0 (v !! i)) 0 m.

(** ** Arithmetic of Go integers *)

Module GoIntFacts.
Import GoInt.

Ltac int_consts :=
  unfold is_int, sub, neg, wrap in *;
  change int_min with (-9223372036854775808) in *;
  change int_max with 9223372036854775807 in *;
  change int_modulus with 18446744073709551616 in *.

Lemma wrap_is_int (z : Z) : is_int (wrap z).
Proof.
  int_consts.
  pose proof (Z.mod_pos_bound (z - -9223372036854775808) 18446744073709551616).
  lia.
Qed.

Lemma wrap_exact (z : Z) : is_int z → wrap z = z.
Proof. intros Hz. int_consts. rewrite Z.mod_small; lia. Qed.

Lemma sub_diag (x : Z) : sub x x = 0.
Proof. unfold sub. rewrite Z.sub_diag. reflexivity. Qed.

(** Subtraction of two [int]s is zero only for equal operands, also when
    it overflows. *)
Lemma sub_eq_0 (x y : Z) : is_int x → is_int y → sub x y = 0 ↔ x = y.
Proof.
  intros Hx Hy. split; [|intros ->; apply sub_diag].
  int_consts. intros H.
  assert (Hm : (x - y - -9223372036854775808) mod 18446744073709551616
               = 9223372036854775808) by lia.
  destruct (Z_lt_le_dec (x - y) (-9223372036854775808)) as [Hn|Hn];
    [|destruct (Z_lt_le_dec (x - y) 9223372036854775808) as [Hs|Hb]].
  - replace (x - y - -9223372036854775808)
      with ((x - y + 27670116110564327424) + (-1) * 18446744073709551616) in Hm by lia.
    rewrite Z.mod_add in Hm by lia.
    rewrite Z.mod_small in Hm by lia. lia.
  - rewrite Z.mod_small in Hm by lia. lia.
  - replace (x - y - -9223372036854775808)
      with ((x - y - 9223372036854775808) + 1 * 18446744073709551616) in Hm by lia.
    rewrite Z.mod_add in Hm by lia.
    rewrite Z.mod_small in Hm by lia. lia.
Qed.

Lemma sub_exact (x y : Z) : is_int (x - y) → sub x y = x - y.
Proof. apply wrap_exact. Qed.

Lemma neg_exact (x : Z) : is_int x → x ≠ int_min → neg x = - x.
Proof. intros Hx Hne. apply wrap_exact. int_consts. lia. Qed.

(** The one value whose negation overflows. *)
Lemma neg_int_min : neg int_min = int_min.
Proof. reflexivity. Qed.

(** Counts that satisfy [0 ≤ pass ≤ total] never overflow. *)
Lemma counts_exact (bp bt ap a_t : Z) :
  is_int bt → is_int a_t → 0 ≤ bp ≤ bt → 0 ≤ ap ≤ a_t →
  sub ap bp = ap - bp
  ∧ sub (sub a_t ap) (sub bt bp) = (a_t - ap) - (bt - bp)
  ∧ sub a_t bt = a_t - bt.
Proof.
  intros Hbt Hat Hb Ha.
  assert (H1 : sub a_t ap = a_t - ap) by (apply sub_exact; int_consts; lia).
  assert (H2 : sub bt bp = bt - bp) by (apply sub_exact; int_consts; lia).
  rewrite H1, H2.
  repeat split; apply sub_exact; int_consts; lia.
Qed.

End GoIntFacts.

(** ** The path matcher *)

Section PathMatcher.

Lemma prefix_is_prefix_of (p t : string) :
  String.prefix p t = true ↔ is_prefix_of p t.
Proof.
  unfold is_prefix_of. revert t.
  induction p as [|a p IH]; intros t; simpl.
  - destruct t; split; eauto.
  - destruct t as [|b t].
    + split; [done|]. intros [rest Hrest]. discriminate.
    + simpl. destruct (Ascii.ascii_dec a b) as [->|Hne].
      * rewrite IH. split; intros [rest Hrest]; exists rest.
        -- by rewrite Hrest.
        -- by injection Hrest.
      * split; [done|]. intros [rest Hrest]. injection Hrest as Hab _.
        by destruct Hne.
Qed.

Lemma index_0_prefix (p t : string) :
  String.index 0 p t = Some 0%nat ↔ String.prefix p t = true.
Proof.
  destruct t as [|b t].
  - destruct p; simpl; split; done.
  - cbn [String.index].
    destruct (String.prefix p (String b t)); [done|].
    destruct (String.index 0 p t); split; done.
Qed.

(** [strings.Index(testPath, path) == 0] is the prefix test. *)
Lemma strings_Index_0 (testPath path : string) :
  strings_Index testPath path = 0 ↔ is_prefix_of path testPath.
Proof.
  rewrite <- prefix_is_prefix_of, <- index_0_prefix. unfold strings_Index.
  destruct (String.index 0 path testPath) as [n|]; split; intros H;
    try discriminate; f_equal; [lia | by injection H as ->].
Qed.

Lemma anyPathMatches_iter_true (elems : list string) (testPath : string) :
  anyPathMatches_iter elems testPath = true
  ↔ ∃ path, path ∈ elems ∧ is_prefix_of path testPath.
Proof.
  induction elems as [|path rest IH]; simpl.
  - split; [done|]. intros (path & Hin & _). by apply elem_of_nil in Hin.
  - case_bool_decide as Hidx.
    + split; [|done]. intros _. exists path. split; [left|].
      by apply strings_Index_0.
    + rewrite IH. split.
      * intros (p & Hin & Hp). exists p. split; [by right|done].
      * intros (p & Hin & Hp). apply elem_of_cons in Hin as [->|Hin].
        -- by apply strings_Index_0 in Hp.
        -- eauto.
Qed.

(** The answer does not depend on the order in which the set is
    iterated. *)
Lemma anyPathMatches_iter_order (ps : gset string) (elems : list string) (testPath : string) :
  elems ≡ₚ elements ps →
  anyPathMatches_iter elems testPath = anyPathMatches (Some ps) testPath.
Proof.
  intros Hperm. simpl. apply eq_true_iff_eq.
  rewrite !anyPathMatches_iter_true.
  split; intros (p & Hin & Hp); exists p; split; try done.
  - by rewrite <- Hperm.
  - by rewrite Hperm.
Qed.

Lemma anyPathMatches_Some (ps : gset string) (testPath : string) :
  anyPathMatches (Some ps) testPath = true
  ↔ ∃ path, path ∈ ps ∧ is_prefix_of path testPath.
Proof.
  simpl. rewrite anyPathMatches_iter_true.
  split; intros (p & Hin & Hp); exists p; split; try done.
  - by apply elem_of_elements in Hin.
  - by apply elem_of_elements.
Qed.

End PathMatcher.

(** ** Loops over map entries *)

Section RangeLoop.

Implicit Types (body : string → list Z → DiffResult → option DiffResult).
Implicit Types (l : list (string * list Z)) (d : DiffResult).

Lemma range_loop_app body l1 l2 d :
  range_loop body (l1 ++ l2) d = range_loop body l1 d ≫= range_loop body l2.
Proof.
  revert d. induction l1 as [|[t v] l1 IH]; intros d; simpl; [done|].
  destruct (body t v d) as [d1|]; simpl; [apply IH | done].
Qed.

(** Two bodies that agree on the entries of the list run the same loop. *)
Lemma range_loop_ext body1 body2 l d :
  (∀ t v d0, (t, v) ∈ l → body1 t v d0 = body2 t v d0) →
  range_loop body1 l d = range_loop body2 l d.
Proof.
  revert d. induction l as [|[t v] l IH]; intros d Hext; simpl; [done|].
  rewrite (Hext t v d) by left.
  destruct (body2 t v d) as [d1|]; simpl; [|done].
  apply IH. intros t' v' d0 Hin. apply Hext. by right.
Qed.

(** A property of the accumulated diff that every iteration keeps holds
    when the loop ends. *)
Lemma range_loop_invariant (P : DiffResult → Prop) body l d d' :
  (∀ t v d0 d1, (t, v) ∈ l → P d0 → body t v d0 = Some d1 → P d1) →
  P d → range_loop body l d = Some d' → P d'.
Proof.
  revert d. induction l as [|[t v] l IH]; intros d Hstep Hd Hrun; simpl in Hrun.
  - by injection Hrun as <-.
  - destruct (body t v d) as [d1|] eqn:Hb; simpl in Hrun; [|done].
    apply (IH d1); [|by eapply Hstep; [left|..]|done].
    intros t' v' d0 d2 Hin. apply Hstep. by right.
Qed.

(** The loop ends without a panic when no iteration panics. *)
Lemma range_loop_is_Some body l d :
  (∀ t v d0, (t, v) ∈ l → is_Some (body t v d0)) →
  is_Some (range_loop body l d).
Proof.
  revert d. induction l as [|[t v] l IH]; intros d Hstep; simpl; [by eexists|].
  destruct (Hstep t v d) as [d1 ->]; [left|]. simpl.
  apply IH. intros t' v' d0 Hin. apply Hstep. by right.
Qed.


(** When one entry is the only one whose iteration can change the diff at
    [key], the final diff has at [key] what that iteration left there. *)
Lemma range_loop_single_writer body key l1 t v l2 d d' :
  (∀ t' v' d0 d1, (t', v') ∈ l1 ++ l2 →
     body t' v' d0 = Some d1 → d1 !! key = d0 !! key) →
  range_loop body (l1 ++ (t, v) :: l2) d = Some d' →
  ∃ d0 d1, d0 !! key = d !! key ∧ body t v d0 = Some d1 ∧ d' !! key = d1 !! key.
Proof.
  intros Hother Hrun. rewrite range_loop_app in Hrun.
  destruct (range_loop body l1 d) as [d0|] eqn:H1; simpl in Hrun; [|done].
  destruct (body t v d0) as [d1|] eqn:Hb; simpl in Hrun; [|done].
  exists d0, d1. split_and!; [|done|].
  - apply (range_loop_invariant (λ x, x !! key = d !! key) body l1 d d0);
      [|done|done].
    intros t' v' x y Hin Hx Hstep. rewrite <- Hx.
    eapply Hother; [|done]. apply elem_of_app. by left.
  - apply (range_loop_invariant (λ x, x !! key = d1 !! key) body l2 d1 d');
      [|done|done].
    intros t' v' x y Hin Hx Hstep. rewrite <- Hx.
    eapply Hother; [|done]. apply elem_of_app. by right.
Qed.

(** The order of [map_to_list] is one of the iteration orders. *)
Lemma iteration_order_map_to_list {V} (m : gmap string V) :
  iteration_order m (map_to_list m).
Proof. unfold iteration_order. reflexivity. Qed.

(** An iteration order lists every entry of the map once. *)
Lemma iteration_order_elem_of {V} (m : gmap string V) (l : list (string * V)) t v :
  iteration_order m l → (t, v) ∈ l ↔ m !! t = Some v.
Proof. intros Hl. rewrite Hl. apply elem_of_map_to_list. Qed.


Lemma iteration_order_split {V} (m : gmap string V) (l : list (string * V)) t v :
  iteration_order m l → m !! t = Some v →
  ∃ l1 l2 : list (string * V),
    l = l1 ++ (t, v) :: l2 ∧ ∀ t' v', (t', v') ∈ l1 ++ l2 → t' ≠ t ∧ m !! t' = Some v'.
Proof.
  intros Hl Hm.
  assert (Hin : (t, v) ∈ l) by by apply (iteration_order_elem_of m).
  apply list_elem_of_split in Hin as (l1 & l2 & ->).
  exists l1, l2. split; [done|]. intros t' v' Hin'.
  assert (Hnd : NoDup ((l1 ++ (t, v) :: l2).*1)).
  { rewrite Hl. apply NoDup_fst_map_to_list. }
  split.
  - intros ->. rewrite fmap_app, fmap_cons in Hnd. simpl in Hnd.
    apply NoDup_app in Hnd as (_ & Hdisj & Hnd2).
    apply NoDup_cons in Hnd2 as [Hnotin _].
    apply elem_of_app in Hin' as [Hin'|Hin'].
    + apply (Hdisj t); [|left]. apply list_elem_of_fmap. by exists (t, v').
    + apply Hnotin. apply list_elem_of_fmap. by exists (t, v').
  - apply (iteration_order_elem_of m _ t' v' Hl).
    apply elem_of_app in Hin' as [Hin'|Hin']; apply elem_of_app; [by left|].
    right. by right.
Qed.

End RangeLoop.

(** ** The two loop bodies *)

Section Bodies.

Context (before after : ResultSet).
Context (filter : DiffFilterParam).
Context (paths : option (gset string)).
Context (renames : option (gmap string string)).

Implicit Types (test key : string) (d : DiffResult).

(** Case analysis on the next index expression or condition of a loop
    body that is known to return [H : body = Some _]. *)
Ltac body_step H :=
  match type of H with
  | context [mbind _ (?rs !! ?i)] =>
      destruct (rs !! i) eqn:?; cbn [mbind option_bind] in H; [|discriminate H]
  | context [if ?b then _ else _] =>
      destruct b eqn:?; cbn [mbind option_bind] in H
  end.

Lemma rename_target_iter_true (entries : list (string * string)) test :
  rename_target_iter entries test = true ↔ ∃ src, (src, test) ∈ entries.
Proof.
  induction entries as [|[src tgt] rest IH]; simpl.
  - split; [done|]. intros [src Hin]. by apply elem_of_nil in Hin.
  - case_bool_decide as Heq.
    + subst tgt. split; [|done]. intros _. exists src. left.
    + rewrite IH. split; intros [s Hin].
      * exists s. by right.
      * apply elem_of_cons in Hin as [Hin|Hin]; [congruence|eauto].
Qed.

(** The search does not depend on the order in which [renames] is
    visited. *)
Lemma rename_target_iter_order (rn : gmap string string)
    (entries : list (string * string)) test :
  iteration_order rn entries →
  rename_target_iter entries test = is_rename_target (Some rn) test.
Proof.
  intros Hperm. simpl. apply eq_true_iff_eq. rewrite !rename_target_iter_true.
  split; intros [s Hin]; exists s; [by rewrite <- Hperm | by rewrite Hperm].
Qed.

Lemma is_rename_target_true test :
  is_rename_target renames test = true
  ↔ ∃ rn src, renames = Some rn ∧ rn !! src = Some test.
Proof.
  unfold is_rename_target. destruct renames as [rn|].
  - rewrite rename_target_iter_true. split.
    + intros [src Hin]. exists rn, src. split; [done|].
      by apply elem_of_map_to_list in Hin.
    + intros (rn' & src & [= <-] & Hsrc). exists src.
      by apply elem_of_map_to_list.
  - split; [done|]. by intros (rn' & src & [=] & _).
Qed.

(** The name a test of [before] is reported under is its own or a rename
    target. *)
Lemma renamed_cases test :
  renamed_test renames test = test
  ∨ ∃ rn, renames = Some rn ∧ rn !! test = Some (renamed_test renames test).
Proof.
  unfold renamed_test. destruct renames as [rn|]; [|by left].
  destruct (rn !! test) as [tgt|] eqn:Hrn; [|by left].
  right. by exists rn.
Qed.

Lemma before_body_writes test rb d d' :
  before_body after filter paths renames test rb d = Some d' →
  d' = d
  ∨ (anyPathMatches paths (renamed_test renames test) = true
     ∧ ∃ e, length e = 3%nat ∧ d' = <[renamed_test renames test := e]> d).
Proof.
  unfold before_body, changed_of. intros H.
  destruct (anyPathMatches paths (renamed_test renames test)) eqn:Hm;
    cbn [negb] in H; [|left; congruence].
  destruct (after !! renamed_test renames test) as [ra|].
  - repeat body_step H; injection H as <-;
      first [by left
            | right; split; [done|];
              refine (ex_intro _ _ (conj _ eq_refl)); reflexivity].
  - repeat body_step H; injection H as <-;
      first [by left
            | right; split; [done|];
              refine (ex_intro _ _ (conj _ eq_refl)); reflexivity].
Qed.

Lemma before_body_lookup_ne key test rb d d' :
  renamed_test renames test ≠ key →
  before_body after filter paths renames test rb d = Some d' →
  d' !! key = d !! key.
Proof.
  intros Hne Hb. apply before_body_writes in Hb as [->|(_ & e & _ & ->)]; [done|].
  by rewrite lookup_insert_ne.
Qed.

Lemma after_body_writes test ra d d' :
  after_body before paths renames test ra d = Some d' →
  d' = d
  ∨ (is_rename_target renames test = false
     ∧ anyPathMatches paths test = true
     ∧ before !! test = None
     ∧ ∃ e, length e = 3%nat ∧ d' = <[test := e]> d).
Proof.
  unfold after_body. intros H.
  destruct (is_rename_target renames test) eqn:Ht; [left; congruence|].
  destruct (anyPathMatches paths test) eqn:Hm; cbn [negb] in H; [|left; congruence].
  destruct (before !! test) eqn:Hb; [left; congruence|].
  repeat body_step H. injection H as <-. right.
  split_and!; [done..|]. refine (ex_intro _ _ (conj _ eq_refl)); reflexivity.
Qed.

Lemma after_body_lookup_ne key test ra d d' :
  test ≠ key →
  after_body before paths renames test ra d = Some d' →
  d' !! key = d !! key.
Proof.
  intros Hne Hb.
  apply after_body_writes in Hb as [->|(_ & _ & _ & e & _ & ->)]; [done|].
  by rewrite lookup_insert_ne.
Qed.

(** The loop over [after] never writes under a name that [before] has or
    that is a rename target. *)
Lemma after_body_lookup_known key test ra d d' :
  is_rename_target renames key = true ∨ is_Some (before !! key) →
  after_body before paths renames test ra d = Some d' →
  d' !! key = d !! key.
Proof.
  intros Hkey Hb.
  apply after_body_writes in Hb as [->|(Ht & _ & Hbefore & e & _ & ->)]; [done|].
  apply lookup_insert_ne. intros ->.
  destruct Hkey as [Hkey|[x Hx]]; congruence.
Qed.

(** The names the loop over [before] writes under are the ones of
    [after_body_lookup_known]. *)
Lemma renamed_known test :
  is_Some (before !! test) →
  is_rename_target renames (renamed_test renames test) = true
  ∨ is_Some (before !! renamed_test renames test).
Proof.
  intros Hb. destruct (renamed_cases test) as [->|(rn & Hrn & Hl)]; [by right|].
  left. apply is_rename_target_true. eauto.
Qed.

Lemma before_body_is_Some test rb d :
  (2 ≤ length rb)%nat →
  (∀ ra, after !! renamed_test renames test = Some ra → (2 ≤ length ra)%nat) →
  is_Some (before_body after filter paths renames test rb d).
Proof.
  intros Hrb Hra. unfold before_body, changed_of.
  destruct rb as [|b0 [|b1 rb]]; simpl in Hrb; [lia..|].
  destruct (after !! renamed_test renames test) as [ra|] eqn:Ha.
  - specialize (Hra ra eq_refl).
    destruct ra as [|a0 [|a1 ra]]; simpl in Hra; [lia..|].
    simpl. repeat (case_match; simpl); eauto.
  - simpl. repeat (case_match; simpl); eauto.
Qed.

Lemma after_body_is_Some test ra d :
  (2 ≤ length ra)%nat →
  is_Some (after_body before paths renames test ra d).
Proof.
  intros Hra. unfold after_body.
  destruct ra as [|a0 [|a1 ra]]; simpl in Hra; [lia..|].
  simpl. repeat (case_match; simpl); eauto.
Qed.

End Bodies.

(** ** What one iteration emits *)

Section Emission.

Context (before after : ResultSet).
Context (filter : DiffFilterParam).
Context (paths : option (gset string)).
Context (renames : option (gmap string string)).

Implicit Types (test key : string) (d : DiffResult).

Lemma positive_part (z : Z) : (if bool_decide (z > 0) then z else 0) = Z.max 0 z.
Proof. case_bool_decide; lia. Qed.

(** Lines 124-150: a test that [after] still has. *)
Lemma before_body_present_delta test rb ra bp bt ap a_t d :
  anyPathMatches paths (renamed_test renames test) = true →
  after !! renamed_test renames test = Some ra →
  rb !! 0%nat = Some bp → rb !! 1%nat = Some bt →
  ra !! 0%nat = Some ap → ra !! 1%nat = Some a_t →
  let changed := bool_decide (GoInt.sub bp ap ≠ 0 ∨ bt ≠ a_t) in
  before_body after filter paths renames test rb d
  = Some (if (changed && Changed filter) || (negb changed && Unchanged filter)
          then <[renamed_test renames test :=
                   [Z.max 0 (GoInt.sub ap bp);
                    Z.max 0 (GoInt.sub (GoInt.sub a_t ap) (GoInt.sub bt bp));
                    GoInt.sub a_t bt]]> d
          else d).
Proof.
  intros Hm Ha Hb0 Hb1 Ha0 Ha1 changed.
  unfold before_body, changed_of. rewrite Hm, Ha, Hb0, Hb1, Ha0, Ha1.
  cbn [negb mbind option_bind]. rewrite !positive_part. subst changed.
  destruct (Changed filter), (Unchanged filter);
    repeat (case_bool_decide; cbn [negb andb orb mbind option_bind]);
    try reflexivity; exfalso; tauto.
Qed.

(** The same with [changed] as the comparison of the counts: the
    difference of two [int]s is zero only when they are equal. *)
Lemma before_body_present test rb ra bp bt ap a_t d :
  anyPathMatches paths (renamed_test renames test) = true →
  after !! renamed_test renames test = Some ra →
  rb !! 0%nat = Some bp → rb !! 1%nat = Some bt →
  ra !! 0%nat = Some ap → ra !! 1%nat = Some a_t →
  GoInt.is_int bp → GoInt.is_int ap →
  let changed := bool_decide (bp ≠ ap ∨ bt ≠ a_t) in
  before_body after filter paths renames test rb d
  = Some (if (changed && Changed filter) || (negb changed && Unchanged filter)
          then <[renamed_test renames test :=
                   [Z.max 0 (GoInt.sub ap bp);
                    Z.max 0 (GoInt.sub (GoInt.sub a_t ap) (GoInt.sub bt bp));
                    GoInt.sub a_t bt]]> d
          else d).
Proof.
  intros Hm Ha Hb0 Hb1 Ha0 Ha1 Hbp Hap changed.
  rewrite (before_body_present_delta test rb ra bp bt ap a_t d) by done.
  assert (Hc : bool_decide (GoInt.sub bp ap ≠ 0 ∨ bt ≠ a_t) = changed).
  { apply bool_decide_ext. by rewrite GoIntFacts.sub_eq_0. }
  by rewrite Hc.
Qed.

(** Lines 117-123: a test that [after] no longer has. *)
Lemma before_body_absent test rb bt d :
  anyPathMatches paths (renamed_test renames test) = true →
  after !! renamed_test renames test = None →
  rb !! 1%nat = Some bt →
  before_body after filter paths renames test rb d
  = Some (if Deleted filter
          then <[renamed_test renames test := [0; 0; GoInt.neg bt]]> d
          else d).
Proof.
  intros Hm Ha Hb1. unfold before_body. rewrite Hm, Ha, Hb1.
  by destruct (Deleted filter).
Qed.

(** Lines 113-115 and 168-170: a name outside the scope. *)
Lemma before_body_out_of_scope test rb d :
  anyPathMatches paths (renamed_test renames test) = false →
  before_body after filter paths renames test rb d = Some d.
Proof. intros Hm. unfold before_body. by rewrite Hm. Qed.

(** Lines 172-175: a test that [before] does not have. *)
Lemma after_body_added test ra ap a_t d :
  is_rename_target renames test = false →
  anyPathMatches paths test = true →
  before !! test = None →
  ra !! 0%nat = Some ap → ra !! 1%nat = Some a_t →
  after_body before paths renames test ra d
  = Some (<[test := [ap; GoInt.sub a_t ap; a_t]]> d).
Proof.
  intros Ht Hm Hb Ha0 Ha1. unfold after_body.
  by rewrite Ht, Hm, Hb, Ha0, Ha1.
Qed.

Lemma after_body_skips test ra d :
  is_rename_target renames test = true
  ∨ anyPathMatches paths test = false
  ∨ is_Some (before !! test) →
  after_body before paths renames test ra d = Some d.
Proof.
  unfold after_body. intros [Ht|[Hm|[x Hb]]].
  - by rewrite Ht.
  - rewrite Hm. by destruct (is_rename_target renames test).
  - rewrite Hb. by repeat case_match.
Qed.

End Emission.

(** ** The two passes *)

Section Passes.

Context (before after : ResultSet).
Context (filter : DiffFilterParam).
Context (paths : option (gset string)).
Context (renames : option (gmap string string)).

Implicit Types (test key : string) (d : DiffResult).
Implicit Types (ob oa : list (string * list Z)).



Lemma GetResultsDiff_in_passes ob oa :
  GetResultsDiff_in before after filter paths renames ob oa
  = before_pass after filter paths renames ob ≫= after_pass before filter paths renames oa.
Proof.
  unfold GetResultsDiff_in, before_pass, after_pass.
  destruct (if Deleted filter || Changed filter then _ else _) as [d1|];
    cbn [mbind option_bind]; [|done].
  by destruct (if Added filter then _ else _).
Qed.

Lemma GetResultsDiff_in_Some ob oa d :
  GetResultsDiff_in before after filter paths renames ob oa = Some d
  ↔ ∃ d1, before_pass after filter paths renames ob = Some d1 ∧ after_pass before filter paths renames oa d1 = Some d.
Proof.
  rewrite GetResultsDiff_in_passes. split.
  - destruct (before_pass after filter paths renames ob) as [d1|]; [|done]. eauto.
  - intros (d1 & -> & H). done.
Qed.

(** Neither pass panics on structurally valid result sets. *)
Lemma before_pass_is_Some ob :
  structurally_valid before → structurally_valid after →
  iteration_order before ob → is_Some (before_pass after filter paths renames ob).
Proof.
  intros Hvb Hva Hob. unfold before_pass.
  destruct (Deleted filter || Changed filter); [|by eexists].
  apply range_loop_is_Some. intros t v d0 Hin.
  apply before_body_is_Some.
  - apply (Hvb t). by apply (iteration_order_elem_of before ob).
  - intros ra Hra. by apply (Hva _ _ Hra).
Qed.

Lemma after_pass_is_Some oa d :
  structurally_valid after →
  iteration_order after oa → is_Some (after_pass before filter paths renames oa d).
Proof.
  intros Hva Hoa. unfold after_pass.
  destruct (Added filter); [|by eexists].
  apply range_loop_is_Some. intros t v d0 Hin.
  apply after_body_is_Some.
  apply (Hva t). by apply (iteration_order_elem_of after oa).
Qed.

Lemma GetResultsDiff_in_is_Some ob oa :
  structurally_valid before → structurally_valid after →
  iteration_order before ob → iteration_order after oa →
  is_Some (GetResultsDiff_in before after filter paths renames ob oa).
Proof.
  intros Hvb Hva Hob Hoa. rewrite GetResultsDiff_in_passes.
  destruct (before_pass_is_Some ob Hvb Hva Hob) as [d1 ->].
  apply (after_pass_is_Some oa d1 Hva Hoa).
Qed.

(** The first pass leaves alone every name that no test of [before] is
    reported under. *)
Lemma before_pass_untouched ob key d :
  (∀ t v, (t, v) ∈ ob → renamed_test renames t ≠ key) →
  before_pass after filter paths renames ob = Some d → d !! key = None.
Proof.
  intros Hne. unfold before_pass.
  destruct (Deleted filter || Changed filter); [|by intros [= <-]].
  intros Hrun.
  apply (range_loop_invariant (λ x, x !! key = None)
           (before_body after filter paths renames) ob ∅ d); [|done|done].
  intros t v d0 d1 Hin Hd0 Hstep. rewrite <- Hd0.
  eapply before_body_lookup_ne; [|done]. by eapply Hne.
Qed.

(** The second pass leaves alone every name of [before_body]'s. *)
Lemma after_pass_known oa key d d' :
  is_rename_target renames key = true ∨ is_Some (before !! key) →
  after_pass before filter paths renames oa d = Some d' → d' !! key = d !! key.
Proof.
  intros Hkey. unfold after_pass.
  destruct (Added filter); [|by intros [= <-]].
  intros Hrun.
  apply (range_loop_invariant (λ x, x !! key = d !! key)
           (after_body before paths renames) oa d d'); [|done|done].
  intros t v d0 d1 Hin Hd0 Hstep. rewrite <- Hd0.
  by eapply after_body_lookup_known.
Qed.


(** The returned diff has under the name of a test of [before] what the
    iteration of that test left there, when the first pass is executed, and
    nothing otherwise. *)
Lemma GetResultsDiff_in_before_key ob oa test rb d :
  iteration_order before ob →
  before !! test = Some rb → sole_source before renames test →
  GetResultsDiff_in before after filter paths renames ob oa = Some d →
  if Deleted filter || Changed filter
  then ∃ d0 d1,
    d0 !! renamed_test renames test = None
    ∧ before_body after filter paths renames test rb d0 = Some d1
    ∧ d !! renamed_test renames test = d1 !! renamed_test renames test
  else d !! renamed_test renames test = None.
Proof.
  intros Hob Hb Hsole Hrun.
  apply GetResultsDiff_in_Some in Hrun as (dm & Hbefore & Hafter).
  assert (Hd : d !! renamed_test renames test = dm !! renamed_test renames test).
  { eapply after_pass_known; [|done]. apply renamed_known. by eexists. }
  unfold before_pass in Hbefore.
  destruct (Deleted filter || Changed filter).
  - destruct (iteration_order_split before ob test rb Hob Hb) as (l1 & l2 & -> & Hrest).
    apply (range_loop_single_writer _ (renamed_test renames test)) in Hbefore
    as (d0 & d1 & Hd0 & Hstep & Hdm).
    + exists d0, d1. split_and!; [by rewrite Hd0|done|by rewrite Hd].
    + intros t' v' x y Hin Hx.
    destruct (Hrest t' v' Hin) as [Hne Hin'].
    eapply before_body_lookup_ne; [|done]. by eapply (Hsole t' v').
  - injection Hbefore as <-. by rewrite Hd.
Qed.

(** Where a key of the returned diff comes from: it satisfies the path
    matcher, and it is the name of a visited test of [before], or a visited
    test of [after] that [before] does not have and no rename leads to. *)
Lemma GetResultsDiff_in_keys ob oa d key :
  GetResultsDiff_in before after filter paths renames ob oa = Some d →
  is_Some (d !! key) →
  anyPathMatches paths key = true
  ∧ ((∃ t v, (t, v) ∈ ob ∧ renamed_test renames t = key)
     ∨ (∃ v, (key, v) ∈ oa ∧ before !! key = None
             ∧ is_rename_target renames key = false)).
Proof.
  intros Hrun.
  apply GetResultsDiff_in_Some in Hrun as (dm & Hbefore & Hafter).
  set (P := λ x : DiffResult, is_Some (x !! key) →
    anyPathMatches paths key = true
    ∧ ((∃ t v, (t, v) ∈ ob ∧ renamed_test renames t = key)
       ∨ (∃ v, (key, v) ∈ oa ∧ before !! key = None
               ∧ is_rename_target renames key = false))).
  assert (Hdm : P dm).
  { unfold before_pass in Hbefore.
    destruct (Deleted filter || Changed filter);
      [|injection Hbefore as <-; intros [x Hx]; by rewrite lookup_empty in Hx].
    apply (range_loop_invariant P (before_body after filter paths renames) ob ∅ dm);
      [|intros [x Hx]; by rewrite lookup_empty in Hx|done].
    intros t v d0 d1 Hin Hd0 Hstep.
    apply before_body_writes in Hstep as [->|(Hm & e & _ & ->)]; [done|].
    intros Hkey. destruct (decide (renamed_test renames t = key)) as [<-|Hne].
    - split; [done|]. left. eauto.
    - rewrite lookup_insert_ne in Hkey by done. by apply Hd0. }
  unfold after_pass in Hafter.
  destruct (Added filter); [|by injection Hafter as <-].
  apply (range_loop_invariant P (after_body before paths renames) oa dm d);
    [|done|done].
  intros t v d0 d1 Hin Hd0 Hstep.
  apply after_body_writes in Hstep as [->|(Ht & Hm & Hnb & e & _ & ->)]; [done|].
  intros Hkey. destruct (decide (t = key)) as [<-|Hne].
  - split; [done|]. right. eauto.
  - rewrite lookup_insert_ne in Hkey by done. by apply Hd0.
Qed.

(** The returned diff has under the name of a test that only [after] has
    what the iteration of that test left there, when the second pass is
    executed, and nothing otherwise. *)
Lemma GetResultsDiff_in_after_key ob oa test ra d :
  iteration_order before ob → iteration_order after oa →
  after !! test = Some ra →
  is_rename_target renames test = false → before !! test = None →
  GetResultsDiff_in before after filter paths renames ob oa = Some d →
  if Added filter
  then ∃ d0 d1,
    d0 !! test = None
    ∧ after_body before paths renames test ra d0 = Some d1
    ∧ d !! test = d1 !! test
  else d !! test = None.
Proof.
  intros Hob Hoa Ha Ht Hb Hrun.
  apply GetResultsDiff_in_Some in Hrun as (dm & Hbefore & Hafter).
  assert (Hdm : dm !! test = None).
  { apply (before_pass_untouched ob); [|done]. intros t v Hin Heq.
    apply (iteration_order_elem_of before ob t v Hob) in Hin.
    destruct (renamed_known before renames t) as [Hk|[x Hk]];
      [by eexists|rewrite Heq in Hk; congruence..]. }
  unfold after_pass in Hafter. destruct (Added filter).
  - destruct (iteration_order_split after oa test ra Hoa Ha) as (l1 & l2 & -> & Hrest).
    apply (range_loop_single_writer _ test) in Hafter
      as (d0 & d1 & Hd0 & Hstep & Hd).
    + exists d0, d1. split_and!; [by rewrite Hd0|done..].
    + intros t' v' x y Hin Hx.
      destruct (Hrest t' v' Hin) as [Hne _].
      by eapply after_body_lookup_ne.
  - by injection Hafter as <-.
Qed.

End Passes.

(** ** The properties of the diff *)

Section Properties.

Local Open Scope string_scope.
Local Open Scope Z_scope.

Implicit Types (before after : ResultSet) (filter : DiffFilterParam).
Implicit Types (paths : option (gset string)).
Implicit Types (renames : option (gmap string string)).
Implicit Types (ob oa : list (string * list Z)) (d : DiffResult).

(** C1: when [Deleted] and [Changed] are both false the loop over [before]
    is not executed: the diff is what the loop over [after] builds from the
    empty diff, whatever [before]'s entries and their order are.  In
    particular, when [Added] is false as well (the filter that has only
    [Unchanged]), no entry is emitted at all, for any test of both
    snapshots, and the diff is the one of an empty [before]. *)
Theorem before_pass_gated before after filter paths renames ob oa :
  Deleted filter = false → Changed filter = false →
  GetResultsDiff_in before after filter paths renames ob oa
  = after_pass before filter paths renames oa ∅
  ∧ (Added filter = false →
     GetResultsDiff_in before after filter paths renames ob oa = Some ∅
     ∧ GetResultsDiff_in ∅ after filter paths renames [] oa = Some ∅).
Proof.
  intros HD HC. unfold GetResultsDiff_in, after_pass. rewrite HD, HC.
  cbn [orb mbind option_bind]. split.
  - by destruct (if Added filter then _ else _).
  - by intros ->.
Qed.

Lemma before_pass_gated_witness :
  let before : ResultSet := {[ "a.html" := [5; 10]; "gone.html" := [1; 1] ]} in
  let after : ResultSet := {[ "a.html" := [5; 10] ]} in
  let filter := mkDiffFilterParam false false false true in
  GetResultsDiff before after filter None None = Some ∅.
Proof.
  intros before after filter.
  destruct (before_pass_gated before after filter None None
              (map_to_list before) (map_to_list after)) as [_ H];
    [reflexivity..|].
  destruct (H eq_refl) as [Hrun _]. exact Hrun.
Defined.

(** C6: the path matcher answers true for the nil scope, and for a scope
    [ps] answers true exactly when some string of [ps] is a literal prefix
    of the test path, byte by byte; the entry "/css" matches
    "/css-foo/x.html".  [anyPathMatches] is a total function without
    effects. *)
Theorem anyPathMatches_spec :
  (∀ testPath, anyPathMatches None testPath = true)
  ∧ (∀ (ps : gset string) testPath,
       anyPathMatches (Some ps) testPath = true
       ↔ ∃ path, path ∈ ps ∧ ∃ rest, testPath = path +:+ rest)
  ∧ anyPathMatches (Some {[ "/css" ]}) "/css-foo/x.html" = true.
Proof.
  split_and!; [done| |vm_compute; reflexivity].
  intros ps testPath. apply anyPathMatches_Some.
Qed.

(** C7: with a scope [ps], whatever the filter, the renames and the orders
    of iteration, every key of the returned diff satisfies the path matcher
    against [ps]; for the scope {"/css/"} every key starts with "/css/". *)
Theorem keys_in_scope (ps : gset string) before after filter renames ob oa d :
  GetResultsDiff_in before after filter (Some ps) renames ob oa = Some d →
  (∀ key, is_Some (d !! key) → anyPathMatches (Some ps) key = true)
  ∧ (ps = {[ "/css/" ]} →
     ∀ key, is_Some (d !! key) → ∃ rest, key = "/css/" +:+ rest).
Proof.
  intros Hrun.
  assert (Hkeys : ∀ key, is_Some (d !! key) → anyPathMatches (Some ps) key = true).
  { intros key Hkey. by destruct (GetResultsDiff_in_keys _ _ _ _ _ _ _ _ key Hrun Hkey). }
  split; [done|]. intros -> key Hkey.
  apply Hkeys, anyPathMatches_Some in Hkey as (path & Hin & Hpre).
  by apply elem_of_singleton in Hin as ->.
Qed.

Lemma keys_in_scope_witness :
  let before : ResultSet := {[ "/css/a.html" := [5; 10]; "/dom/b.html" := [1; 2] ]} in
  let after : ResultSet := {[ "/css/a.html" := [7; 10]; "/html/c.html" := [3; 4] ]} in
  let d : DiffResult := {[ "/css/a.html" := [2; 0; 0] ]} in
  GetResultsDiff before after (mkDiffFilterParam true true true true)
    (Some {[ "/css/" ]}) None = Some d
  ∧ ∀ key, is_Some (d !! key) → ∃ rest, key = "/css/" +:+ rest.
Proof.
  intros before after d.
  assert (Hrun : GetResultsDiff before after (mkDiffFilterParam true true true true)
                   (Some {[ "/css/" ]}) None = Some d) by (vm_compute; reflexivity).
  split; [exact Hrun|].
  exact (proj2 (keys_in_scope {[ "/css/" ]} before after
                  (mkDiffFilterParam true true true true) None
                  (map_to_list before) (map_to_list after) d Hrun) eq_refl).
Defined.

(** C9: on structurally valid result sets (every value array has at least
    two elements) [GetResultsDiff] never panics: for every filter, scope,
    renames and order of iteration every index is in range and a diff is
    returned, whatever the counts are.  Counts with pass > total give a diff
    as well, with a negative second element for an added test. *)
Theorem GetResultsDiff_no_panic before after filter paths renames ob oa :
  structurally_valid before → structurally_valid after →
  iteration_order before ob → iteration_order after oa →
  (∃ d, GetResultsDiff_in before after filter paths renames ob oa = Some d)
  ∧ GetResultsDiff ∅ {[ "b.html" := [4; 3] ]}
      (mkDiffFilterParam true false false false) None None
    = Some {[ "b.html" := [4; -1; 3] ]}.
Proof.
  intros Hvb Hva Hob Hoa. split; [|vm_compute; reflexivity].
  by apply GetResultsDiff_in_is_Some.
Qed.

Lemma GetResultsDiff_no_panic_witness :
  let before : ResultSet := {[ "a.html" := [10; 5]; "old.html" := [1; 2; 3] ]} in
  let after : ResultSet := {[ "a.html" := [0; 0]; "new.html" := [3; 1] ]} in
  ∃ d, GetResultsDiff before after (mkDiffFilterParam true true true true)
         (Some {[ "a"; "n" ]}) (Some {[ "old.html" := "new.html" ]}) = Some d.
Proof.
  intros before after.
  refine (proj1 (GetResultsDiff_no_panic before after _ _ _
                   (map_to_list before) (map_to_list after) _ _ _ _)).
  - apply (bool_decide_unpack _). vm_compute. exact I.
  - apply (bool_decide_unpack _). vm_compute. exact I.
  - apply iteration_order_map_to_list.
  - apply iteration_order_map_to_list.
Defined.

(** C2: for a test of [before] whose name, after renaming, [after] has and
    the path matcher accepts, let [changed] say that the pass counts or the
    totals differ.  The iteration of that test writes an entry under the
    name exactly when [changed] and [Changed], or not [changed] and
    [Unchanged], and the entry is
    [max 0 (ap - bp); max 0 ((at - ap) - (bt - bp)); at - bt] in Go's [int]
    arithmetic.  When the first pass is executed and no other test of
    [before] is reported under the same name, that is what the returned diff
    has under the name.  For counts with 0 ≤ pass ≤ total the subtractions
    are the exact ones. *)
Theorem changed_test_entry before after filter paths renames test rb ra bp bt ap a_t :
  before !! test = Some rb →
  rb !! 0%nat = Some bp → rb !! 1%nat = Some bt →
  after !! renamed_test renames test = Some ra →
  ra !! 0%nat = Some ap → ra !! 1%nat = Some a_t →
  GoInt.is_int bp → GoInt.is_int ap →
  anyPathMatches paths (renamed_test renames test) = true →
  let changed := bool_decide (bp ≠ ap ∨ bt ≠ a_t) in
  let emitted := (changed && Changed filter) || (negb changed && Unchanged filter) in
  let entry := [Z.max 0 (GoInt.sub ap bp);
                Z.max 0 (GoInt.sub (GoInt.sub a_t ap) (GoInt.sub bt bp));
                GoInt.sub a_t bt] in
  (∀ d, before_body after filter paths renames test rb d
        = Some (if emitted then <[renamed_test renames test := entry]> d else d))
  ∧ (Deleted filter || Changed filter = true →
     structurally_valid before → structurally_valid after →
     sole_source before renames test →
     ∀ ob oa, iteration_order before ob → iteration_order after oa →
     ∃ d, GetResultsDiff_in before after filter paths renames ob oa = Some d
          ∧ d !! renamed_test renames test = if emitted then Some entry else None)
  ∧ (GoInt.is_int bt → GoInt.is_int a_t → 0 ≤ bp ≤ bt → 0 ≤ ap ≤ a_t →
     entry = [Z.max 0 (ap - bp); Z.max 0 ((a_t - ap) - (bt - bp)); a_t - bt]).
Proof.
  intros Hb Hb0 Hb1 Ha Ha0 Ha1 Hbp Hap Hm changed emitted entry.
  assert (Hstep : ∀ d, before_body after filter paths renames test rb d
            = Some (if emitted then <[renamed_test renames test := entry]> d else d)).
  { intros d. by apply before_body_present with (ra := ra). }
  split_and!; [done| |].
  - intros Hgate Hvb Hva Hsole ob oa Hob Hoa.
    destruct (GetResultsDiff_in_is_Some before after filter paths renames ob oa)
      as [d Hrun]; [done..|].
    exists d. split; [done|].
    pose proof (GetResultsDiff_in_before_key before after filter paths renames
                  ob oa test rb d Hob Hb Hsole Hrun) as Hkey.
    rewrite Hgate in Hkey. destruct Hkey as (d0 & d1 & Hd0 & Hd1 & ->).
    rewrite Hstep in Hd1. injection Hd1 as <-.
    destruct emitted; [by rewrite lookup_insert_eq|done].
  - intros Hbt Hat Hbr Har. subst entry.
    destruct (GoIntFacts.counts_exact bp bt ap a_t) as (-> & -> & ->); done.
Qed.

Lemma changed_test_entry_witness :
  let before : ResultSet := {[ "a.html" := [5; 10] ]} in
  let after : ResultSet := {[ "a.html" := [7; 10] ]} in
  let filter := mkDiffFilterParam false false true false in
  ∃ d, GetResultsDiff before after filter None None = Some d
       ∧ d !! "a.html" = Some [2; 0; 0].
Proof.
  intros before after filter.
  assert (Hrange : ∀ z, -9223372036854775808 ≤ z ≤ 9223372036854775807 → GoInt.is_int z)
    by (intros z Hz; exact Hz).
  destruct (changed_test_entry before after filter None None "a.html"
              [5; 10] [7; 10] 5 10 7 10) as (_ & Hrun & _);
    [reflexivity..|apply Hrange; lia|apply Hrange; lia|reflexivity|].
  apply Hrun.
  - reflexivity.
  - apply (bool_decide_unpack _). vm_compute. exact I.
  - apply (bool_decide_unpack _). vm_compute. exact I.
  - apply (bool_decide_unpack _). vm_compute. exact I.
  - apply iteration_order_map_to_list.
  - apply iteration_order_map_to_list.
Defined.

(** C3: for a test of [before] whose name, after renaming, [after] does not
    have and the path matcher accepts, the iteration of that test leaves the
    diff as it is when [Deleted] is false and writes [0; 0; -bt] under the
    name when it is true.  When no other test of [before] is reported under
    the same name that is what the returned diff has under the name.  The
    negation is Go's, exact for every total but the least [int].  For
    before = {"a.html": [5, 10]}, after = {} and the filter with only
    [Deleted] the diff is exactly {"a.html": [0, 0, -10]}. *)
Theorem deleted_test_entry before after filter paths renames test rb bt :
  before !! test = Some rb → rb !! 1%nat = Some bt →
  after !! renamed_test renames test = None →
  anyPathMatches paths (renamed_test renames test) = true →
  (∀ d, before_body after filter paths renames test rb d
        = Some (if Deleted filter
                then <[renamed_test renames test := [0; 0; GoInt.neg bt]]> d
                else d))
  ∧ (structurally_valid before → structurally_valid after →
     sole_source before renames test →
     ∀ ob oa, iteration_order before ob → iteration_order after oa →
     ∃ d, GetResultsDiff_in before after filter paths renames ob oa = Some d
          ∧ d !! renamed_test renames test
            = if Deleted filter then Some [0; 0; GoInt.neg bt] else None)
  ∧ (GoInt.is_int bt → bt ≠ GoInt.int_min → GoInt.neg bt = - bt)
  ∧ (∀ ob oa,
       iteration_order ({[ "a.html" := [5; 10] ]} : ResultSet) ob →
       iteration_order (∅ : ResultSet) oa →
       GetResultsDiff_in {[ "a.html" := [5; 10] ]} ∅
         (mkDiffFilterParam false true false false) None None ob oa
       = Some {[ "a.html" := [0; 0; -10] ]}).
Proof.
  intros Hb Hb1 Ha Hm.
  assert (Hstep : ∀ d, before_body after filter paths renames test rb d
            = Some (if Deleted filter
                    then <[renamed_test renames test := [0; 0; GoInt.neg bt]]> d
                    else d)).
  { intros d. by apply before_body_absent. }
  split_and!; [done| |apply GoIntFacts.neg_exact|].
  - intros Hvb Hva Hsole ob oa Hob Hoa.
    destruct (GetResultsDiff_in_is_Some before after filter paths renames ob oa)
      as [d Hrun]; [done..|].
    exists d. split; [done|].
    pose proof (GetResultsDiff_in_before_key before after filter paths renames
                  ob oa test rb d Hob Hb Hsole Hrun) as Hkey.
    destruct (Deleted filter) eqn:HD.
    + cbn [orb] in Hkey. destruct Hkey as (d0 & d1 & Hd0 & Hd1 & ->).
      rewrite Hstep in Hd1. injection Hd1 as <-. by rewrite lookup_insert_eq.
    + destruct (false || Changed filter); [|done].
      destruct Hkey as (d0 & d1 & Hd0 & Hd1 & ->).
      rewrite Hstep in Hd1. by injection Hd1 as <-.
  - intros ob oa Hob Hoa. unfold iteration_order in Hob, Hoa.
    rewrite map_to_list_singleton in Hob. rewrite map_to_list_empty in Hoa.
    apply Permutation_singleton_r in Hob as ->.
    apply Permutation_nil_r in Hoa as ->.
    vm_compute. reflexivity.
Qed.

Lemma deleted_test_entry_witness :
  let before : ResultSet := {[ "a.html" := [5; 10]; "b.html" := [1; 2] ]} in
  let after : ResultSet := {[ "b.html" := [1; 2] ]} in
  let filter := mkDiffFilterParam false true false false in
  ∃ d, GetResultsDiff before after filter None None = Some d
       ∧ d !! "a.html" = Some [0; 0; -10].
Proof.
  intros before after filter.
  destruct (deleted_test_entry before after filter None None "a.html"
              [5; 10] 10) as (_ & Hrun & _); [reflexivity..|].
  apply Hrun.
  - apply (bool_decide_unpack _). vm_compute. exact I.
  - apply (bool_decide_unpack _). vm_compute. exact I.
  - apply (bool_decide_unpack _). vm_compute. exact I.
  - apply iteration_order_map_to_list.
  - apply iteration_order_map_to_list.
Defined.

(** C4: the loop over [after] is executed exactly when [Added] is set.  For
    a test of [after] that is no rename target, that the path matcher
    accepts and that [before] does not have, its iteration writes
    [ap; at - ap; at] under the test's own name, and the returned diff has
    that entry under the name when [Added] is set and no entry under it
    otherwise.  An iteration for a test that [before] has writes nothing. *)
Theorem added_test_entry before after filter paths renames test ra ap a_t :
  after !! test = Some ra →
  ra !! 0%nat = Some ap → ra !! 1%nat = Some a_t →
  is_rename_target renames test = false →
  anyPathMatches paths test = true →
  before !! test = None →
  (∀ d, after_body before paths renames test ra d
        = Some (<[test := [ap; GoInt.sub a_t ap; a_t]]> d))
  ∧ (structurally_valid before → structurally_valid after →
     ∀ ob oa, iteration_order before ob → iteration_order after oa →
     ∃ d, GetResultsDiff_in before after filter paths renames ob oa = Some d
          ∧ d !! test = if Added filter
                        then Some [ap; GoInt.sub a_t ap; a_t] else None)
  ∧ (∀ t rt d, is_Some (before !! t) →
       after_body before paths renames t rt d = Some d)
  ∧ (GoInt.is_int a_t → 0 ≤ ap ≤ a_t → GoInt.sub a_t ap = a_t - ap).
Proof.
  intros Ha Ha0 Ha1 Ht Hm Hb.
  assert (Hstep : ∀ d, after_body before paths renames test ra d
                       = Some (<[test := [ap; GoInt.sub a_t ap; a_t]]> d)).
  { intros d. by apply after_body_added. }
  split_and!; [done| | |].
  - intros Hvb Hva ob oa Hob Hoa.
    destruct (GetResultsDiff_in_is_Some before after filter paths renames ob oa)
      as [d Hrun]; [done..|].
    exists d. split; [done|].
    pose proof (GetResultsDiff_in_after_key before after filter paths renames
                  ob oa test ra d Hob Hoa Ha Ht Hb Hrun) as Hkey.
    destruct (Added filter); [|done].
    destruct Hkey as (d0 & d1 & Hd0 & Hd1 & ->).
    rewrite Hstep in Hd1. injection Hd1 as <-. by rewrite lookup_insert_eq.
  - intros t rt d Hbt. apply after_body_skips. by right; right.
  - intros Hat Har. apply GoIntFacts.sub_exact.
    unfold GoInt.is_int in *.
    change GoInt.int_min with (-9223372036854775808) in *.
    change GoInt.int_max with 9223372036854775807 in *. lia.
Qed.

Lemma added_test_entry_witness :
  let before : ResultSet := {[ "a.html" := [5; 10] ]} in
  let after : ResultSet := {[ "a.html" := [5; 10]; "b.html" := [3; 4] ]} in
  let filter := mkDiffFilterParam true false false false in
  ∃ d, GetResultsDiff before after filter None None = Some d
       ∧ d !! "b.html" = Some [3; 1; 4].
Proof.
  intros before after filter.
  destruct (added_test_entry before after filter None None "b.html"
              [3; 4] 3 4) as (_ & Hrun & _); [reflexivity..|].
  apply Hrun.
  - apply (bool_decide_unpack _). vm_compute. exact I.
  - apply (bool_decide_unpack _). vm_compute. exact I.
  - apply iteration_order_map_to_list.
  - apply iteration_order_map_to_list.
Defined.

(** C5: for a test of [before] that [renames] has as a key, the iteration
    is the one of the rename target: the target is what the path matcher
    checks, what [after] is asked for and what the entry is written under.
    A test of [after] that is the value of an entry of [renames] is skipped
    by the loop over [after].  For before = {"old.html": [5, 10]},
    after = {"new.html": [5, 10]}, renames = {"old.html": "new.html"} and
    the filter with [Unchanged] and [Changed], with or without [Added], the
    diff is exactly {"new.html": [0, 0, 0]}. *)
Theorem rename_target_used before after filter paths (rn : gmap string string) :
  (∀ test target rb d, rn !! test = Some target →
     renamed_test (Some rn) test = target
     ∧ before_body after filter paths (Some rn) test rb d
       = before_body after filter paths None target rb d)
  ∧ (∀ src test ra d, rn !! src = Some test →
       after_body before paths (Some rn) test ra d = Some d)
  ∧ (∀ (added : bool) ob oa,
       iteration_order ({[ "old.html" := [5; 10] ]} : ResultSet) ob →
       iteration_order ({[ "new.html" := [5; 10] ]} : ResultSet) oa →
       GetResultsDiff_in {[ "old.html" := [5; 10] ]} {[ "new.html" := [5; 10] ]}
         (mkDiffFilterParam added false true true) None
         (Some {[ "old.html" := "new.html" ]}) ob oa
       = Some {[ "new.html" := [0; 0; 0] ]}).
Proof.
  split_and!.
  - intros test target rb d Hrn. unfold before_body, renamed_test. by rewrite Hrn.
  - intros src test ra d Hrn. apply after_body_skips. left.
    apply is_rename_target_true. eauto.
  - intros added ob oa Hob Hoa. unfold iteration_order in Hob, Hoa.
    rewrite map_to_list_singleton in Hob, Hoa.
    apply Permutation_singleton_r in Hob as ->.
    apply Permutation_singleton_r in Hoa as ->.
    destruct added; vm_compute; reflexivity.
Qed.

Lemma rename_target_used_witness :
  let before : ResultSet := {[ "old.html" := [5; 10] ]} in
  let after : ResultSet := {[ "new.html" := [7; 10] ]} in
  let rn : gmap string string := {[ "old.html" := "new.html" ]} in
  let filter := mkDiffFilterParam true true true true in
  before_body after filter None (Some rn) "old.html" [5; 10] ∅
  = Some {[ "new.html" := [2; 0; 0] ]}
  ∧ after_body before None (Some rn) "new.html" [7; 10] ∅ = Some ∅.
Proof.
  intros before after rn filter.
  destruct (rename_target_used before after filter None rn) as (Hb & Ha & _).
  split.
  - destruct (Hb "old.html" "new.html" [5; 10] ∅ eq_refl) as [_ ->].
    vm_compute. reflexivity.
  - exact (Ha "old.html" "new.html" [7; 10] ∅ eq_refl).
Defined.

(** The diff of a result set against itself, under a filter that has
    [Changed]: nothing for a name outside the set, and the zero entry for a
    name of the set when [Unchanged] is set. *)
Lemma self_diff_lookup (R : ResultSet) filter renames ob oa d key :
  structurally_valid R →
  renames = None ∨ renames = Some ∅ →
  iteration_order R ob → iteration_order R oa →
  Changed filter = true →
  GetResultsDiff_in R R filter None renames ob oa = Some d →
  d !! key = if Unchanged filter then (λ _, [0; 0; 0]) <$> R !! key else None.
Proof.
  intros Hv Hrn Hob Hoa HC Hrun.
  assert (Hid : ∀ t, renamed_test renames t = t).
  { intros t. destruct Hrn as [-> | ->]; [done|].
    unfold renamed_test. by rewrite lookup_empty. }
  destruct (R !! key) as [rb|] eqn:HR.
  - assert (Hsole : sole_source R renames key).
    { intros t v _ Hne. by rewrite !Hid. }
    pose proof (GetResultsDiff_in_before_key R R filter None renames
                  ob oa key rb d Hob HR Hsole Hrun) as Hkey.
    rewrite HC, orb_true_r, Hid in Hkey.
    destruct Hkey as (d0 & d1 & Hd0 & Hd1 & ->).
    pose proof (Hv key rb HR) as Hlen.
    destruct rb as [|bp [|bt rb]]; simpl in Hlen; [lia..|].
    rewrite (before_body_present_delta R filter None renames key
               (bp :: bt :: rb) (bp :: bt :: rb) bp bt bp bt d0) in Hd1;
      [|by rewrite ?Hid..].
    injection Hd1 as <-. rewrite !GoIntFacts.sub_diag, Hid, HC.
    rewrite bool_decide_false by (intros [?|?]; done).
    destruct (Unchanged filter); cbn [negb andb orb fmap option_fmap option_map];
      [by rewrite lookup_insert_eq|done].
  - assert (Hnone : d !! key = None).
    { apply eq_None_not_Some. intros Hsome.
      destruct (GetResultsDiff_in_keys R R filter None renames ob oa d key Hrun Hsome)
        as [_ [(t & v & Hin & Ht)|(v & Hin & _)]].
      - rewrite Hid in Ht. subst t.
        apply (iteration_order_elem_of R ob key v Hob) in Hin. congruence.
      - apply (iteration_order_elem_of R oa key v Hoa) in Hin. congruence. }
    rewrite Hnone. by destruct (Unchanged filter).
Qed.

(** C8: for a structurally valid result set [R], without renames and without
    scope, the diff of [R] against itself is empty under the filter that has
    only [Changed], and maps every name of [R], and no other, to [0; 0; 0]
    under the filter that has [Unchanged] and [Changed]. *)
Theorem diff_against_itself (R : ResultSet) renames ob oa :
  structurally_valid R →
  renames = None ∨ renames = Some ∅ →
  iteration_order R ob → iteration_order R oa →
  GetResultsDiff_in R R (mkDiffFilterParam false false true false)
    None renames ob oa = Some ∅
  ∧ GetResultsDiff_in R R (mkDiffFilterParam false false true true)
      None renames ob oa = Some ((λ _, [0; 0; 0]) <$> R).
Proof.
  intros Hv Hrn Hob Hoa. split.
  - destruct (GetResultsDiff_in_is_Some R R (mkDiffFilterParam false false true false)
                None renames ob oa) as [d Hrun]; [done..|].
    rewrite Hrun. f_equal. apply map_eq. intros key. rewrite lookup_empty.
    by rewrite (self_diff_lookup R (mkDiffFilterParam false false true false)
                  renames ob oa d key Hv Hrn Hob Hoa eq_refl Hrun).
  - destruct (GetResultsDiff_in_is_Some R R (mkDiffFilterParam false false true true)
                None renames ob oa) as [d Hrun]; [done..|].
    rewrite Hrun. f_equal. apply map_eq. intros key. rewrite lookup_fmap.
    by rewrite (self_diff_lookup R (mkDiffFilterParam false false true true)
                  renames ob oa d key Hv Hrn Hob Hoa eq_refl Hrun).
Qed.

Lemma diff_against_itself_witness :
  let R : ResultSet := {[ "a.html" := [5; 10]; "b.html" := [0; 3] ]} in
  GetResultsDiff R R (mkDiffFilterParam false false true false) None None = Some ∅
  ∧ GetResultsDiff R R (mkDiffFilterParam false false true true) None None
    = Some {[ "a.html" := [0; 0; 0]; "b.html" := [0; 0; 0] ]}.
Proof.
  intros R.
  destruct (diff_against_itself R None (map_to_list R) (map_to_list R))
    as [H1 H2].
  - apply (bool_decide_unpack _). vm_compute. exact I.
  - by left.
  - apply iteration_order_map_to_list.
  - apply iteration_order_map_to_list.
  - split; [exact H1|]. unfold GetResultsDiff. rewrite H2.
    vm_compute. reflexivity.
Defined.



(** Two tests of [before] renamed_test to one name: the entry the diff has
    under that name is the one of the test visited last, so two orders of
    iteration give two diffs. *)
Lemma rename_collision_order_dependent :
  let before : ResultSet := {[ "a.html" := [1; 10]; "b.html" := [2; 10] ]} in
  let after : ResultSet := {[ "c.html" := [5; 10] ]} in
  let rn : gmap string string := {[ "a.html" := "c.html"; "b.html" := "c.html" ]} in
  let filter := mkDiffFilterParam false false true false in
  let ob1 := [("a.html", [1; 10]); ("b.html", [2; 10])] in
  let ob2 := [("b.html", [2; 10]); ("a.html", [1; 10])] in
  iteration_order before ob1 ∧ iteration_order before ob2
  ∧ GetResultsDiff_in before after filter None (Some rn) ob1 (map_to_list after)
    = Some {[ "c.html" := [3; 0; 0] ]}
  ∧ GetResultsDiff_in before after filter None (Some rn) ob2 (map_to_list after)
    = Some {[ "c.html" := [4; 0; 0] ]}.
Proof.
  intros before after rn filter ob1 ob2.
  assert (Hl : map_to_list before = ob1 ∨ map_to_list before = ob2)
    by (vm_compute; auto).
  split_and!; [| |vm_compute; reflexivity..].
  - unfold iteration_order. destruct Hl as [-> | ->]; [done|apply perm_swap].
  - unfold iteration_order. destruct Hl as [-> | ->]; [apply perm_swap|done].
Qed.

(** A test of [before] renamed_test to the name of another test of [before]:
    the diff has the renamed_test test's entry under that name although the
    test of that name is unchanged and [Unchanged] is not set. *)
Lemma rename_onto_existing_test :
  let before : ResultSet := {[ "old.html" := [5; 10]; "new.html" := [7; 10] ]} in
  let after : ResultSet := {[ "new.html" := [7; 10] ]} in
  let rn : gmap string string := {[ "old.html" := "new.html" ]} in
  let filter := mkDiffFilterParam false false true false in
  ∀ ob oa, iteration_order before ob → iteration_order after oa →
    GetResultsDiff_in before after filter None (Some rn) ob oa
    = Some {[ "new.html" := [2; 0; 0] ]}.
Proof.
  intros before after rn filter ob oa Hob Hoa.
  unfold iteration_order in Hob, Hoa.
  assert (Hl : map_to_list before = [("old.html", [5; 10]); ("new.html", [7; 10])]
               ∨ map_to_list before = [("new.html", [7; 10]); ("old.html", [5; 10])])
    by (vm_compute; auto).
  assert (Hob' : ob = [("old.html", [5; 10]); ("new.html", [7; 10])]
                 ∨ ob = [("new.html", [7; 10]); ("old.html", [5; 10])]).
  { destruct Hl as [Hl|Hl]; rewrite Hl in Hob;
      apply Permutation_sym, Permutation_length_2_inv in Hob; tauto. }
  destruct Hob' as [-> | ->]; vm_compute; reflexivity.
Qed.

(** C2, as a statement about the returned diff without the condition that
    the test is the only one reported under its name, fails: "new.html" is
    in both sets with equal counts, the first pass is executed, the name is
    in scope and [Unchanged] is not set, so no entry is due for it; but
    "old.html" is renamed onto it, and in every order of iteration the
    diff has the entry of "old.html" under "new.html". *)
Lemma changed_test_entry_counterexample :
  let before : ResultSet := {[ "old.html" := [5; 10]; "new.html" := [7; 10] ]} in
  let after : ResultSet := {[ "new.html" := [7; 10] ]} in
  let rn : gmap string string := {[ "old.html" := "new.html" ]} in
  let filter := mkDiffFilterParam false false true false in
  let changed := bool_decide (7 ≠ 7 ∨ 10 ≠ 10) in
  let emitted := (changed && Changed filter) || (negb changed && Unchanged filter) in
  before !! "new.html" = Some [7; 10]
  ∧ after !! renamed_test (Some rn) "new.html" = Some [7; 10]
  ∧ Deleted filter || Changed filter = true
  ∧ anyPathMatches None (renamed_test (Some rn) "new.html") = true
  ∧ emitted = false
  ∧ ¬ sole_source before (Some rn) "new.html"
  ∧ (∀ ob oa, iteration_order before ob → iteration_order after oa →
       ∃ d, GetResultsDiff_in before after filter None (Some rn) ob oa = Some d
            ∧ d !! renamed_test (Some rn) "new.html" = Some [2; 0; 0]
            ∧ d !! renamed_test (Some rn) "new.html"
              ≠ (if emitted then Some [0; 0; 0] else None)).
Proof.
  intros before after rn filter changed emitted.
  split_and!; [reflexivity..| |].
  - apply (bool_decide_eq_false_1 _). vm_compute. reflexivity.
  - intros ob oa Hob Hoa. exists {[ "new.html" := [2; 0; 0] ]}.
    split_and!.
    + by apply rename_onto_existing_test.
    + vm_compute. reflexivity.
    + intros H. vm_compute in H. discriminate H.
Qed.

(** C3, as a statement about the returned diff without the condition that
    the test is the only one reported under its name, fails: "old.html"
    (total 2) is renamed to "new.html", which [before] has as well
    (total 5), and [after] has neither.  Both iterations write under
    "new.html"; the diff keeps the entry written last, so in one order the
    entry is not [0; 0; -2] of "old.html" and in the other it is not
    [0; 0; -5] of "new.html". *)
Lemma deleted_test_entry_counterexample :
  let before : ResultSet := {[ "old.html" := [1; 2]; "new.html" := [1; 5] ]} in
  let after : ResultSet := ∅ in
  let rn : gmap string string := {[ "old.html" := "new.html" ]} in
  let filter := mkDiffFilterParam false true false false in
  let ob1 := [("old.html", [1; 2]); ("new.html", [1; 5])] in
  let ob2 := [("new.html", [1; 5]); ("old.html", [1; 2])] in
  before !! "old.html" = Some [1; 2]
  ∧ before !! "new.html" = Some [1; 5]
  ∧ renamed_test (Some rn) "old.html" = "new.html"
  ∧ renamed_test (Some rn) "new.html" = "new.html"
  ∧ after !! "new.html" = None
  ∧ anyPathMatches None "new.html" = true
  ∧ ¬ sole_source before (Some rn) "old.html"
  ∧ iteration_order before ob1 ∧ iteration_order before ob2
  ∧ GetResultsDiff_in before after filter None (Some rn) ob1 []
    = Some {[ "new.html" := [0; 0; -5] ]}
  ∧ GetResultsDiff_in before after filter None (Some rn) ob2 []
    = Some {[ "new.html" := [0; 0; -2] ]}
  ∧ [0; 0; GoInt.neg 2] ≠ [0; 0; -5]
  ∧ [0; 0; GoInt.neg 5] ≠ [0; 0; -2].
Proof.
  intros before after rn filter ob1 ob2.
  assert (Hl : map_to_list before = ob1 ∨ map_to_list before = ob2)
    by (vm_compute; auto).
  split_and!; try (vm_compute; reflexivity); try discriminate;
    try (unfold iteration_order; destruct Hl as [-> | ->];
         first [reflexivity | apply perm_swap]).
  apply (bool_decide_eq_false_1 _). vm_compute. reflexivity.
Qed.

End Properties.

(** ** The loop bodies as entries *)

Section Entries.

Context (before after : ResultSet).
Context (filter : DiffFilterParam).
Context (paths : option (gset string)).
Context (renames : option (gmap string string)).

Implicit Types (test key : string) (d : DiffResult).

(** Case analysis on every index expression and condition of a loop body
    in the goal. *)
Ltac entry_cases :=
  repeat match goal with
  | |- context [mbind _ (?rs !! ?i)] =>
      destruct (rs !! i);
      cbn [mbind option_bind fmap option_fmap option_map negb andb orb]
  | |- context [bool_decide ?P] =>
      destruct (bool_decide P);
      cbn [mbind option_bind fmap option_fmap option_map negb andb orb]
  | |- context [if ?b then _ else _] =>
      destruct b;
      cbn [mbind option_bind fmap option_fmap option_map negb andb orb]
  end.

(** An iteration of the loop over [before] reads the diff nowhere: it
    panics, leaves the diff alone or writes one entry under the test's
    name, and which of these does not depend on the diff. *)
Lemma before_body_emit test rb d :
  before_body after filter paths renames test rb d
  = (λ o, emit (renamed_test renames test) o d)
      <$> before_entry after filter paths renames test rb.
Proof.
  unfold before_entry, before_body, changed_of.
  destruct (after !! renamed_test renames test) as [ra|]; entry_cases;
    rewrite ?lookup_empty, ?lookup_insert_eq; reflexivity.
Qed.

Lemma after_body_emit test ra d :
  after_body before paths renames test ra d
  = (λ o, emit test o d) <$> after_entry before paths renames test ra.
Proof.
  unfold after_entry, after_body.
  destruct (before !! test) as [rb|]; entry_cases;
    rewrite ?lookup_empty, ?lookup_insert_eq; reflexivity.
Qed.

Lemma emit_lookup key o d : emit key o d !! key = match o with Some e => Some e | None => d !! key end.
Proof. destruct o; simpl; [apply lookup_insert_eq|done]. Qed.

Lemma emit_lookup_ne key key' o d : key ≠ key' → emit key o d !! key' = d !! key'.
Proof. intros Hne. destruct o; simpl; [by apply lookup_insert_ne|done]. Qed.

Lemma emit_comm key1 key2 o1 o2 d :
  key1 ≠ key2 → emit key1 o1 (emit key2 o2 d) = emit key2 o2 (emit key1 o1 d).
Proof.
  intros Hne. destruct o1, o2; simpl; try done. by apply insert_insert_ne.
Qed.

Lemma before_body_comm t1 v1 t2 v2 d :
  renamed_test renames t1 ≠ renamed_test renames t2 →
  before_body after filter paths renames t1 v1 d
    ≫= before_body after filter paths renames t2 v2
  = before_body after filter paths renames t2 v2 d
    ≫= before_body after filter paths renames t1 v1.
Proof.
  intros Hne. rewrite (before_body_emit t1 v1 d), (before_body_emit t2 v2 d).
  destruct (before_entry after filter paths renames t1 v1) as [o1|] eqn:H1,
           (before_entry after filter paths renames t2 v2) as [o2|] eqn:H2;
    cbn [mbind option_bind fmap option_fmap option_map];
    rewrite ?before_body_emit, ?H1, ?H2;
    cbn [mbind option_bind fmap option_fmap option_map]; try done.
  by rewrite emit_comm.
Qed.

Lemma after_body_comm t1 v1 t2 v2 d :
  t1 ≠ t2 →
  after_body before paths renames t1 v1 d ≫= after_body before paths renames t2 v2
  = after_body before paths renames t2 v2 d ≫= after_body before paths renames t1 v1.
Proof.
  intros Hne. rewrite (after_body_emit t1 v1 d), (after_body_emit t2 v2 d).
  destruct (after_entry before paths renames t1 v1) as [o1|] eqn:H1,
           (after_entry before paths renames t2 v2) as [o2|] eqn:H2;
    cbn [mbind option_bind fmap option_fmap option_map];
    rewrite ?after_body_emit, ?H1, ?H2;
    cbn [mbind option_bind fmap option_fmap option_map]; try done.
  by rewrite emit_comm.
Qed.

End Entries.

(** A loop whose iterations commute pairwise gives the same diff in every
    order. *)
Lemma range_loop_Permutation
    (body : string → list Z → DiffResult → option DiffResult)
    (l l' : list (string * list Z)) :
  l ≡ₚ l' →
  NoDup l.*1 →
  (∀ t1 v1 t2 v2 d, (t1, v1) ∈ l → (t2, v2) ∈ l → t1 ≠ t2 →
     body t1 v1 d ≫= body t2 v2 = body t2 v2 d ≫= body t1 v1) →
  ∀ d, range_loop body l d = range_loop body l' d.
Proof.
  induction 1 as [|[t v] l l' Hperm IH|[t1 v1] [t2 v2] l|l l' l'' H1 IH1 H2 IH2];
    intros Hnd Hcomm d.
  - done.
  - simpl. destruct (body t v d) as [d1|]; simpl; [|done].
    apply IH.
    + rewrite fmap_cons in Hnd. by apply NoDup_cons in Hnd as [_ Hnd].
    + intros ? ? ? ? ? Hin1 Hin2. apply Hcomm; by right.
  - assert (Hne : t2 ≠ t1).
    { rewrite !fmap_cons in Hnd. cbn [fst] in Hnd.
      apply NoDup_cons in Hnd as [Hnotin _]. intros ->. apply Hnotin. left. }
    pose proof (Hcomm t2 v2 t1 v1 d) as Hc.
    cbn [range_loop].
    destruct (body t2 v2 d) as [dy|], (body t1 v1 d) as [dx|];
      cbn [mbind option_bind] in *.
    + rewrite Hc; [done|left|right; left|done].
    + rewrite Hc; [done|left|right; left|done].
    + rewrite <- Hc; [done|left|right; left|done].
    + done.
  - rewrite IH1 by done. apply IH2.
    + by rewrite <- H1.
    + intros ? ? ? ? ? Hin1 Hin2. apply Hcomm; by rewrite H1.
Qed.

(** Iterations that all leave the diff alone. *)
Lemma range_loop_id (body : string → list Z → DiffResult → option DiffResult)
    (l : list (string * list Z)) (d : DiffResult) :
  (∀ t v d0, (t, v) ∈ l → body t v d0 = Some d0) →
  range_loop body l d = Some d.
Proof.
  induction l as [|[t v] l IH]; intros Hid; simpl; [done|].
  rewrite (Hid t v d) by left. simpl. apply IH.
  intros t' v' d0 Hin. apply Hid. by right.
Qed.

(** One iteration that panics whatever the diff is makes the loop panic. *)
Lemma range_loop_panic (body : string → list Z → DiffResult → option DiffResult)
    (l : list (string * list Z)) (d : DiffResult) t v :
  (t, v) ∈ l → (∀ d0, body t v d0 = None) →
  range_loop body l d = None.
Proof.
  intros Hin Hnone. revert d.
  induction l as [|[t' v'] l IH]; intros d; [by apply elem_of_nil in Hin|].
  simpl. apply elem_of_cons in Hin as [[= <- <-]|Hin].
  - by rewrite Hnone.
  - destruct (body t' v' d); simpl; [by apply IH|done].
Qed.

(** A loop of entry-writing iterations started from [d] gives what it
    gives from the empty diff, laid over [d]. *)
Lemma range_loop_emit_union
    (body : string → list Z → DiffResult → option DiffResult)
    (key : string → string) (entry : string → list Z → option (option (list Z)))
    (l : list (string * list Z)) (d : DiffResult) :
  (∀ t v d0, body t v d0 = (λ o, emit (key t) o d0) <$> entry t v) →
  range_loop body l d = (λ E : DiffResult, E ∪ d) <$> range_loop body l ∅.
Proof.
  intros Hbody. revert d.
  assert (Hemit : ∀ k o (d0 : DiffResult), emit k o d0 = emit k o ∅ ∪ d0).
  { intros k [e|] d0; simpl; [|by rewrite (left_id_L ∅ (∪))].
    by rewrite <- insert_union_l, (left_id_L ∅ (∪)). }
  induction l as [|[t v] l IH]; intros d; simpl.
  - by rewrite (left_id_L ∅ (∪)).
  - rewrite !Hbody. destruct (entry t v) as [o|]; simpl; [|done].
    rewrite (IH (emit (key t) o d)), (IH (emit (key t) o ∅)).
    destruct (range_loop body l ∅) as [E|]; simpl; [|done].
    f_equal. rewrite (Hemit (key t) o d). by rewrite (assoc_L (∪)).
Qed.

Section Coverage.

Local Open Scope string_scope.
Local Open Scope Z_scope.

Implicit Types (before after : ResultSet) (filter : DiffFilterParam).
Implicit Types (paths : option (gset string)).
Implicit Types (renames : option (gmap string string)).
Implicit Types (ob oa : list (string * list Z)) (d : DiffResult).

(** X1: when no two tests of [before] are reported under one name (in
    particular without renames), the diff, or the panic, does not depend on
    the orders in which the two maps are iterated. *)
Theorem iteration_order_irrelevant before after filter paths renames ob oa :
  injective_renames before renames →
  iteration_order before ob → iteration_order after oa →
  GetResultsDiff_in before after filter paths renames ob oa
  = GetResultsDiff before after filter paths renames.
Proof.
  intros Hinj Hob Hoa. unfold GetResultsDiff, GetResultsDiff_in.
  assert (Hb : ∀ d, range_loop (before_body after filter paths renames) ob d
                 = range_loop (before_body after filter paths renames)
                     (map_to_list before) d).
  { apply range_loop_Permutation; [done| |].
    - rewrite Hob. apply NoDup_fst_map_to_list.
    - intros t1 v1 t2 v2 d Hin1 Hin2 Hne. apply before_body_comm.
      apply (iteration_order_elem_of before ob t1 v1 Hob) in Hin1.
      apply (iteration_order_elem_of before ob t2 v2 Hob) in Hin2.
      by apply (Hinj t2 v2 Hin2 t1 v1 Hin1). }
  assert (Ha : ∀ d, range_loop (after_body before paths renames) oa d
                 = range_loop (after_body before paths renames)
                     (map_to_list after) d).
  { apply range_loop_Permutation; [done| |].
    - rewrite Hoa. apply NoDup_fst_map_to_list.
    - intros t1 v1 t2 v2 d _ _ Hne. by apply after_body_comm. }
  rewrite Hb.
  destruct (if Deleted filter || Changed filter then _ else _) as [dm|];
    cbn [mbind option_bind]; [|done].
  by rewrite Ha.
Qed.

Lemma iteration_order_irrelevant_witness :
  let before : ResultSet := {[ "a.html" := [1; 10]; "b.html" := [2; 10] ]} in
  let after : ResultSet := {[ "c.html" := [5; 10]; "b.html" := [2; 9] ]} in
  let rn : gmap string string := {[ "a.html" := "c.html" ]} in
  let filter := mkDiffFilterParam true true true true in
  GetResultsDiff_in before after filter None (Some rn)
    [("b.html", [2; 10]); ("a.html", [1; 10])]
    [("b.html", [2; 9]); ("c.html", [5; 10])]
  = GetResultsDiff before after filter None (Some rn).
Proof.
  intros before after rn filter.
  apply iteration_order_irrelevant.
  - apply (bool_decide_unpack _). vm_compute. exact I.
  - unfold iteration_order.
    assert (Hl : map_to_list before = [("b.html", [2; 10]); ("a.html", [1; 10])]
                 ∨ map_to_list before = [("a.html", [1; 10]); ("b.html", [2; 10])])
      by (vm_compute; auto).
    destruct Hl as [-> | ->]; [reflexivity|apply perm_swap].
  - unfold iteration_order.
    assert (Hl : map_to_list after = [("b.html", [2; 9]); ("c.html", [5; 10])]
                 ∨ map_to_list after = [("c.html", [5; 10]); ("b.html", [2; 9])])
      by (vm_compute; auto).
    destruct Hl as [-> | ->]; [reflexivity|apply perm_swap].
Defined.

(** X2: renames that concern neither set are ignored: when no key of
    [renames] is a test of [before] and no value of [renames] is a test of
    [after], the diff is the one computed without renames.  An empty
    [renames] is the same as a nil one. *)
Theorem irrelevant_renames_ignored before after filter paths
    (rn : gmap string string) ob oa :
  map_Forall (λ src tgt, before !! src = None ∧ after !! tgt = None) rn →
  iteration_order before ob → iteration_order after oa →
  GetResultsDiff_in before after filter paths (Some rn) ob oa
  = GetResultsDiff_in before after filter paths None ob oa
  ∧ GetResultsDiff_in before after filter paths (Some ∅) ob oa
    = GetResultsDiff_in before after filter paths None ob oa.
Proof.
  intros Hrn Hob Hoa.
  assert (Hgen : ∀ rn' : gmap string string,
            map_Forall (λ src tgt, before !! src = None ∧ after !! tgt = None) rn' →
            GetResultsDiff_in before after filter paths (Some rn') ob oa
            = GetResultsDiff_in before after filter paths None ob oa).
  { clear rn Hrn. intros rn Hrn. unfold GetResultsDiff_in.
    rewrite (range_loop_ext (before_body after filter paths (Some rn))
               (before_body after filter paths None) ob ∅).
    - destruct (if Deleted filter || Changed filter then _ else _) as [dm|];
        cbn [mbind option_bind]; [|done].
      destruct (Added filter); [|done].
      rewrite (range_loop_ext (after_body before paths (Some rn))
                 (after_body before paths None) oa dm); [done|].
      intros t v d0 Hin.
      apply (iteration_order_elem_of after oa t v Hoa) in Hin.
      unfold after_body.
      destruct (is_rename_target (Some rn) t) eqn:Ht; [|done].
      apply is_rename_target_true in Ht as (rn' & src & [= <-] & Hsrc).
      destruct (Hrn src t Hsrc) as [_ Hnone]. congruence.
    - intros t v d0 Hin.
      apply (iteration_order_elem_of before ob t v Hob) in Hin.
      unfold before_body, renamed_test.
      destruct (rn !! t) as [tgt|] eqn:Ht; [|done].
      destruct (Hrn t tgt Ht) as [Hnone _]. congruence. }
  split; [by apply Hgen|]. apply Hgen. apply map_Forall_empty.
Qed.

Lemma irrelevant_renames_ignored_witness :
  let before : ResultSet := {[ "a.html" := [1; 10] ]} in
  let after : ResultSet := {[ "a.html" := [2; 10]; "b.html" := [3; 3] ]} in
  let rn : gmap string string := {[ "x.html" := "y.html" ]} in
  let filter := mkDiffFilterParam true true true true in
  GetResultsDiff before after filter None (Some rn)
  = GetResultsDiff before after filter None None.
Proof.
  intros before after rn filter.
  refine (proj1 (irrelevant_renames_ignored before after filter None rn
                   (map_to_list before) (map_to_list after) _ _ _)).
  - apply (bool_decide_unpack _). vm_compute. exact I.
  - apply iteration_order_map_to_list.
  - apply iteration_order_map_to_list.
Defined.

(** X3: with an empty, non-nil scope no test is in scope: the diff is
    empty for every filter, every renames and all result sets, and no array
    is indexed, so arrays that are too short do not make it panic. *)
Theorem empty_scope_empty_diff before after filter renames ob oa :
  GetResultsDiff_in before after filter (Some ∅) renames ob oa = Some ∅.
Proof.
  unfold GetResultsDiff_in.
  rewrite (range_loop_id (before_body after filter (Some ∅) renames) ob ∅)
    by (intros; by apply before_body_out_of_scope).
  assert (Hafter : range_loop (after_body before (Some ∅) renames) oa ∅ = Some ∅).
  { apply range_loop_id. intros t v d0 _. apply after_body_skips. right; by left. }
  destruct (Deleted filter || Changed filter), (Added filter);
    cbn [mbind option_bind]; by rewrite ?Hafter.
Qed.

(** The entry of an iteration under a scope is the entry without scope
    when the name is in scope, and none otherwise. *)
Lemma before_entry_scope after filter (ps : gset string) renames test rb :
  before_entry after filter (Some ps) renames test rb
  = if anyPathMatches (Some ps) (renamed_test renames test)
    then before_entry after filter None renames test rb
    else Some None.
Proof.
  unfold before_entry, before_body.
  set (m := anyPathMatches (Some ps) (renamed_test renames test)).
  cbn [anyPathMatches negb]. destruct m; cbn [negb]; [done|].
  cbn [fmap option_fmap option_map]. by rewrite lookup_empty.
Qed.

Lemma after_entry_scope before (ps : gset string) renames test ra :
  after_entry before (Some ps) renames test ra
  = if anyPathMatches (Some ps) test
    then after_entry before None renames test ra
    else Some None.
Proof.
  unfold after_entry, after_body.
  set (m := anyPathMatches (Some ps) test).
  cbn [anyPathMatches negb]. destruct m; cbn [negb]; [done|].
  destruct (is_rename_target renames test);
    cbn [fmap option_fmap option_map]; by rewrite lookup_empty.
Qed.

(** Keeping the names in scope commutes with writing an entry. *)
Lemma filter_emit (ps : gset string) key o d :
  in_scope ps (emit key o d)
  = emit key (if anyPathMatches (Some ps) key then o else None)
      (in_scope ps d).
Proof.
  destruct o as [e|]; [|by destruct (anyPathMatches (Some ps) key)].
  unfold in_scope.
  destruct (anyPathMatches (Some ps) key) eqn:Hm; cbn [emit].
  - by apply map_filter_insert_True.
  - apply map_filter_insert_not. intros y. cbn [fst]. congruence.
Qed.

(** A loop under a scope follows the loop without scope, on the diffs
    restricted to the scope. *)
Lemma range_loop_scope (ps : gset string)
    (body body' : string → list Z → DiffResult → option DiffResult)
    (l : list (string * list Z)) d d' :
  (∀ t v d0 d1, body t v d0 = Some d1 →
     body' t v (in_scope ps d0)
     = Some (in_scope ps d1)) →
  range_loop body l d = Some d' →
  range_loop body' l (in_scope ps d)
  = Some (in_scope ps d').
Proof.
  intros Hstep. revert d.
  induction l as [|[t v] l IH]; intros d Hrun; simpl in *.
  - by injection Hrun as <-.
  - destruct (body t v d) as [d1|] eqn:Hb; simpl in Hrun; [|done].
    rewrite (Hstep t v d d1 Hb). simpl. by apply IH.
Qed.

(** X4: scoping commutes with diffing: when the run without scope returns
    a diff, the run under the scope [ps], over the same orders, returns
    that diff restricted to the names that [ps] matches. *)
Theorem scope_restricts_diff (ps : gset string) before after filter renames ob oa d :
  GetResultsDiff_in before after filter None renames ob oa = Some d →
  GetResultsDiff_in before after filter (Some ps) renames ob oa
  = Some (in_scope ps d).
Proof.
  intros Hrun.
  apply GetResultsDiff_in_Some in Hrun as (dm & Hbefore & Hafter).
  apply GetResultsDiff_in_Some.
  exists (in_scope ps dm).
  split.
  - unfold before_pass in *.
    destruct (Deleted filter || Changed filter).
    + replace (∅ : DiffResult) with (in_scope ps ∅) at 1
        by apply map_filter_empty.
      apply (range_loop_scope ps (before_body after filter None renames)); [|done].
      intros t v d0 d1 Hb. rewrite before_body_emit in Hb.
      rewrite before_body_emit, before_entry_scope.
      destruct (before_entry after filter None renames t v) as [o|];
        cbn [fmap option_fmap option_map] in *; [|done].
      injection Hb as <-. rewrite filter_emit.
      by destruct (anyPathMatches (Some ps) (renamed_test renames t)).
    + injection Hbefore as <-. unfold in_scope. by rewrite map_filter_empty.
  - unfold after_pass in *. destruct (Added filter).
    + apply (range_loop_scope ps (after_body before None renames)); [|done].
      intros t v d0 d1 Hb. rewrite after_body_emit in Hb.
      rewrite after_body_emit, after_entry_scope.
      destruct (after_entry before None renames t v) as [o|];
        cbn [fmap option_fmap option_map] in *; [|done].
      injection Hb as <-. rewrite filter_emit.
      by destruct (anyPathMatches (Some ps) t).
    + by injection Hafter as <-.
Qed.

Lemma scope_restricts_diff_witness :
  let before : ResultSet := {[ "/css/a.html" := [5; 10]; "/dom/b.html" := [1; 2] ]} in
  let after : ResultSet := {[ "/css/a.html" := [7; 10]; "/html/c.html" := [3; 4] ]} in
  let filter := mkDiffFilterParam true true true true in
  let d : DiffResult :=
    {[ "/css/a.html" := [2; 0; 0]; "/dom/b.html" := [0; 0; -2];
       "/html/c.html" := [3; 1; 4] ]} in
  GetResultsDiff before after filter None None = Some d
  ∧ GetResultsDiff before after filter (Some {[ "/css/" ]}) None
    = Some {[ "/css/a.html" := [2; 0; 0] ]}.
Proof.
  intros before after filter d.
  assert (Hrun : GetResultsDiff before after filter None None = Some d)
    by (vm_compute; reflexivity).
  split; [exact Hrun|].
  unfold GetResultsDiff.
  rewrite (scope_restricts_diff {[ "/css/" ]} before after filter None
             (map_to_list before) (map_to_list after) d Hrun).
  vm_compute. reflexivity.
Defined.

(** A property of the diff that every iteration of both loops keeps holds
    for the returned diff. *)
Lemma GetResultsDiff_in_invariant (P : DiffResult → Prop)
    before after filter paths renames ob oa d :
  P ∅ →
  (∀ t v d0 d1, (t, v) ∈ ob → P d0 →
     before_body after filter paths renames t v d0 = Some d1 → P d1) →
  (∀ t v d0 d1, (t, v) ∈ oa → P d0 →
     after_body before paths renames t v d0 = Some d1 → P d1) →
  GetResultsDiff_in before after filter paths renames ob oa = Some d → P d.
Proof.
  intros Hempty Hb Ha Hrun.
  apply GetResultsDiff_in_Some in Hrun as (dm & Hbefore & Hafter).
  assert (Hdm : P dm).
  { unfold before_pass in Hbefore.
    destruct (Deleted filter || Changed filter); [|by injection Hbefore as <-].
    by apply (range_loop_invariant P (before_body after filter paths renames) ob ∅ dm). }
  unfold after_pass in Hafter.
  destruct (Added filter); [|by injection Hafter as <-].
  by apply (range_loop_invariant P (after_body before paths renames) oa dm d).
Qed.

(** X5: the loop over [after] can be run on its own: the diff is the diff
    computed without [Added], overlaid with the diff computed with [Added]
    alone, and the first run panics when one of the two does.  The two diffs
    have no name in common. *)
Theorem added_pass_separate before after filter paths renames ob oa :
  GetResultsDiff_in before after filter paths renames ob oa
  = (B ← GetResultsDiff_in before after
           (mkDiffFilterParam false (Deleted filter) (Changed filter) (Unchanged filter))
           paths renames ob oa;
     A ← GetResultsDiff_in before after
           (mkDiffFilterParam (Added filter) false false false)
           paths renames ob oa;
     Some (A ∪ B))
  ∧ (iteration_order before ob →
     ∀ A B,
       GetResultsDiff_in before after
         (mkDiffFilterParam false (Deleted filter) (Changed filter) (Unchanged filter))
         paths renames ob oa = Some B →
       GetResultsDiff_in before after
         (mkDiffFilterParam (Added filter) false false false)
         paths renames ob oa = Some A →
       A ##ₘ B).
Proof.
  split.
  - unfold GetResultsDiff_in. cbn [Added Deleted Changed Unchanged orb].
    destruct (if Deleted filter || Changed filter then _ else _) as [dm|];
      cbn [mbind option_bind]; [|done].
    destruct (Added filter); cbn [mbind option_bind].
    + rewrite (range_loop_emit_union (after_body before paths renames) id
                 (after_entry before paths renames) oa dm)
        by (intros; apply after_body_emit).
      by destruct (range_loop (after_body before paths renames) oa ∅).
    + by rewrite (left_id_L ∅ (∪)).
  - intros Hob A B HB HA. apply map_disjoint_spec. intros k x y HAk HBk.
    apply GetResultsDiff_in_Some in HA as (da & HA1 & HA2).
    apply GetResultsDiff_in_Some in HB as (db & HB1 & HB2).
    unfold before_pass in HA1. cbn [Deleted Changed orb] in HA1.
    injection HA1 as <-.
    unfold after_pass in HB2. cbn [Added] in HB2. injection HB2 as <-.
    destruct (is_rename_target renames k) eqn:Ht.
    { pose proof (after_pass_known before _ paths renames oa k ∅ A
                    (or_introl Ht) HA2) as Heq.
      rewrite Heq, lookup_empty in HAk. discriminate HAk. }
    destruct (before !! k) as [rb|] eqn:Hbk.
    { pose proof (after_pass_known before _ paths renames oa k ∅ A
                    (or_intror (mk_is_Some _ _ Hbk)) HA2) as Heq.
      rewrite Heq, lookup_empty in HAk. discriminate HAk. }
    enough (Hnone : db !! k = None) by congruence.
    refine (before_pass_untouched after _ paths renames ob k db _ HB1).
    intros t v Hin Heq.
    apply (iteration_order_elem_of before ob t v Hob) in Hin.
    destruct (renamed_known before renames t) as [Hk|[z Hk]];
      [by eexists|rewrite Heq in Hk; congruence..].
Qed.

Lemma added_pass_separate_witness :
  let before : ResultSet := {[ "a.html" := [5; 10]; "gone.html" := [1; 1] ]} in
  let after : ResultSet := {[ "a.html" := [7; 10]; "b.html" := [3; 4] ]} in
  let filter := mkDiffFilterParam true true true true in
  ({[ "b.html" := [3; 1; 4] ]} : DiffResult)
  ##ₘ {[ "a.html" := [2; 0; 0]; "gone.html" := [0; 0; -1] ]}.
Proof.
  intros before after filter.
  refine (proj2 (added_pass_separate before after filter None None
                   (map_to_list before) (map_to_list after)) _ _ _ _ _).
  - apply iteration_order_map_to_list.
  - vm_compute. reflexivity.
  - vm_compute. reflexivity.
Defined.

(** X6: a deleted test whose array has fewer than two elements makes
    [GetResultsDiff] panic: with [Deleted] set, a test of [before] in scope
    that [after] does not have under its name is indexed at 1. *)
Theorem short_before_array_panics before after filter paths renames ob oa test rb :
  Deleted filter = true →
  before !! test = Some rb → (length rb < 2)%nat →
  after !! renamed_test renames test = None →
  anyPathMatches paths (renamed_test renames test) = true →
  iteration_order before ob →
  GetResultsDiff_in before after filter paths renames ob oa = None.
Proof.
  intros HD Hb Hlen Ha Hm Hob. unfold GetResultsDiff_in. rewrite HD.
  cbn [orb].
  rewrite (range_loop_panic (before_body after filter paths renames) ob ∅ test rb);
    [done|by apply (iteration_order_elem_of before ob)|].
  intros d0. unfold before_body. rewrite Hm, Ha, HD. cbn [negb].
  by rewrite (lookup_ge_None_2 rb 1) by lia.
Qed.

Lemma short_before_array_panics_witness :
  GetResultsDiff {[ "a.html" := [5] ]} ∅
    (mkDiffFilterParam false true false false) None None = None.
Proof.
  apply (short_before_array_panics _ _ _ _ _ _ _ "a.html" [5]);
    [reflexivity|reflexivity|simpl; lia|reflexivity|reflexivity|].
  apply iteration_order_map_to_list.
Defined.

(** X7: an added test whose array has fewer than two elements makes
    [GetResultsDiff] panic: with [Added] set, a test of [after] in scope
    that [before] does not have and no rename leads to is indexed at 0
    and 1. *)
Theorem short_after_array_panics before after filter paths renames ob oa test ra :
  Added filter = true →
  after !! test = Some ra → (length ra < 2)%nat →
  before !! test = None →
  is_rename_target renames test = false →
  anyPathMatches paths test = true →
  iteration_order after oa →
  GetResultsDiff_in before after filter paths renames ob oa = None.
Proof.
  intros HA Ha Hlen Hb Ht Hm Hoa. unfold GetResultsDiff_in. rewrite HA.
  destruct (if Deleted filter || Changed filter then _ else _) as [dm|];
    cbn [mbind option_bind]; [|done].
  rewrite (range_loop_panic (after_body before paths renames) oa dm test ra);
    [done|by apply (iteration_order_elem_of after oa)|].
  intros d0. unfold after_body. rewrite Ht, Hm, Hb. cbn [negb].
  destruct ra as [|a0 [|a1 ra]]; [done|done|simpl in Hlen; lia].
Qed.

Lemma short_after_array_panics_witness :
  GetResultsDiff {[ "a.html" := [5; 10] ]} {[ "a.html" := [5; 10]; "b.html" := [3] ]}
    (mkDiffFilterParam true false false false) None None = None.
Proof.
  apply (short_after_array_panics _ _ _ _ _ _ _ "b.html" [3]);
    [reflexivity|reflexivity|simpl; lia|reflexivity|reflexivity|reflexivity|].
  apply iteration_order_map_to_list.
Defined.

(** X8: every key of the diff is the name under which a test of [before]
    is reported, or a test of [after] that [before] does not have and that
    no rename leads to. *)
Theorem keys_come_from_inputs before after filter paths renames ob oa d key :
  iteration_order before ob → iteration_order after oa →
  GetResultsDiff_in before after filter paths renames ob oa = Some d →
  is_Some (d !! key) →
  (∃ test, is_Some (before !! test) ∧ renamed_test renames test = key)
  ∨ (is_Some (after !! key) ∧ before !! key = None
     ∧ is_rename_target renames key = false).
Proof.
  intros Hob Hoa Hrun Hkey.
  destruct (GetResultsDiff_in_keys before after filter paths renames ob oa d key
              Hrun Hkey) as [_ [(t & v & Hin & Ht)|(v & Hin & Hb & Hr)]].
  - left. exists t. split; [|done]. exists v.
    by apply (iteration_order_elem_of before ob).
  - right. split_and!; [|done..]. exists v.
    by apply (iteration_order_elem_of after oa).
Qed.

Lemma keys_come_from_inputs_witness :
  let before : ResultSet := {[ "old.html" := [5; 10] ]} in
  let after : ResultSet := {[ "new.html" := [7; 10]; "b.html" := [3; 4] ]} in
  let rn : gmap string string := {[ "old.html" := "new.html" ]} in
  (∃ test, is_Some (before !! test) ∧ renamed_test (Some rn) test = "new.html")
  ∨ (is_Some (after !! "new.html") ∧ before !! "new.html" = None
     ∧ is_rename_target (Some rn) "new.html" = false).
Proof.
  intros before after rn.
  apply (keys_come_from_inputs before after (mkDiffFilterParam true true true true)
           None (Some rn) (map_to_list before) (map_to_list after)
           {[ "new.html" := [2; 0; 0]; "b.html" := [3; 1; 4] ]}).
  - apply iteration_order_map_to_list.
  - apply iteration_order_map_to_list.
  - vm_compute. reflexivity.
  - by eexists.
Defined.

(** X9: every value of the diff is an array of exactly three elements,
    whatever the arrays of the result sets are. *)
Theorem entries_have_three_elements before after filter paths renames ob oa d key e :
  GetResultsDiff_in before after filter paths renames ob oa = Some d →
  d !! key = Some e → length e = 3%nat.
Proof.
  intros Hrun. revert key e.
  apply (GetResultsDiff_in_invariant
           (λ x, ∀ key e, x !! key = Some e → length e = 3%nat)
           before after filter paths renames ob oa d); [| | |done].
  - intros key e He. by rewrite lookup_empty in He.
  - intros t v d0 d1 _ Hd0 Hstep key e He.
    apply before_body_writes in Hstep as [->|(_ & e' & Hlen & ->)]; [by eapply Hd0|].
    apply lookup_insert_Some in He as [[_ <-]|[_ He]]; [done|by eapply Hd0].
  - intros t v d0 d1 _ Hd0 Hstep key e He.
    apply after_body_writes in Hstep as [->|(_ & _ & _ & e' & Hlen & ->)];
      [by eapply Hd0|].
    apply lookup_insert_Some in He as [[_ <-]|[_ He]]; [done|by eapply Hd0].
Qed.

Lemma entries_have_three_elements_witness :
  let before : ResultSet := {[ "a.html" := [5; 10; 99]; "gone.html" := [1; 1] ]} in
  let after : ResultSet := {[ "a.html" := [7; 10]; "b.html" := [3; 4; 0; 0] ]} in
  let filter := mkDiffFilterParam true true true true in
  let d : DiffResult :=
    {[ "a.html" := [2; 0; 0]; "gone.html" := [0; 0; -1]; "b.html" := [3; 1; 4] ]} in
  GetResultsDiff before after filter None None = Some d
  ∧ length [3; 1; 4] = 3%nat.
Proof.
  intros before after filter d.
  assert (Hrun : GetResultsDiff before after filter None None = Some d)
    by (vm_compute; reflexivity).
  split; [exact Hrun|].
  apply (entries_have_three_elements before after filter None None
           (map_to_list before) (map_to_list after) d "b.html" [3; 1; 4] Hrun).
  vm_compute. reflexivity.
Defined.

Lemma counts_ok_inv (v : list Z) :
  counts_ok v →
  ∃ pass total rest, v = pass :: total :: rest
    ∧ 0 ≤ pass ≤ total ∧ GoInt.is_int pass ∧ GoInt.is_int total.
Proof.
  destruct v as [|p [|t rest]]; simpl; [done..|]. intros [Hp Ht].
  exists p, t, rest. unfold GoInt.is_int.
  change GoInt.int_min with (-9223372036854775808) in *.
  change GoInt.int_max with 9223372036854775807 in *.
  split_and!; [done|lia..].
Qed.

Lemma valid_counts_structurally_valid (m : ResultSet) :
  valid_counts m → structurally_valid m.
Proof.
  intros Hm k v Hk.
  destruct (counts_ok_inv v (Hm k v Hk)) as (p & t & rest & -> & _).
  simpl. lia.
Qed.

(** X10: for result sets whose counts satisfy 0 ≤ passed ≤ total, every
    entry [improved; regressed; delta] of the diff has improved ≥ 0,
    regressed ≥ 0 and delta ≤ improved + regressed, for every filter, scope
    and renames. *)
Theorem entries_bound_delta before after filter paths renames ob oa d key e :
  valid_counts before → valid_counts after →
  iteration_order before ob → iteration_order after oa →
  GetResultsDiff_in before after filter paths renames ob oa = Some d →
  d !! key = Some e → entry_ok e.
Proof.
  intros Hvb Hva Hob Hoa Hrun. revert key e.
  apply (GetResultsDiff_in_invariant (λ x, ∀ key e, x !! key = Some e → entry_ok e)
           before after filter paths renames ob oa d); [| | |done].
  - intros key e He. by rewrite lookup_empty in He.
  - intros t rb d0 d1 Hin Hd0 Hstep key e He.
    apply (iteration_order_elem_of before ob t rb Hob) in Hin.
    destruct (counts_ok_inv rb (Hvb t rb Hin))
      as (bp & bt & rest & -> & Hbr & Hbp & Hbt).
    destruct (anyPathMatches paths (renamed_test renames t)) eqn:Hm;
      [|rewrite before_body_out_of_scope in Hstep by done;
        injection Hstep as <-; by eapply Hd0].
    destruct (after !! renamed_test renames t) as [ra|] eqn:Ha.
    + destruct (counts_ok_inv ra (Hva _ ra Ha))
        as (ap & a_t & rest' & -> & Har & Hap & Hat).
      rewrite (before_body_present after filter paths renames t _ _ bp bt ap a_t d0)
        in Hstep by done.
      injection Hstep as <-.
      destruct (_ || _); [|by eapply Hd0].
      apply lookup_insert_Some in He as [[_ <-]|[_ He]]; [|by eapply Hd0].
      destruct (GoIntFacts.counts_exact bp bt ap a_t) as (-> & -> & ->); [done..|].
      simpl. lia.
    + rewrite (before_body_absent after filter paths renames t _ bt d0) in Hstep
        by done.
      injection Hstep as <-.
      destruct (Deleted filter); [|by eapply Hd0].
      apply lookup_insert_Some in He as [[_ <-]|[_ He]]; [|by eapply Hd0].
      rewrite GoIntFacts.neg_exact; [simpl; lia|done|].
      change GoInt.int_min with (-9223372036854775808). lia.
  - intros t ra d0 d1 Hin Hd0 Hstep key e He.
    apply (iteration_order_elem_of after oa t ra Hoa) in Hin.
    destruct (counts_ok_inv ra (Hva t ra Hin))
      as (ap & a_t & rest & -> & Har & Hap & Hat).
    destruct (is_rename_target renames t) eqn:Ht;
      [rewrite after_body_skips in Hstep by (by left);
       injection Hstep as <-; by eapply Hd0|].
    destruct (anyPathMatches paths t) eqn:Hm;
      [|rewrite after_body_skips in Hstep by (right; by left);
        injection Hstep as <-; by eapply Hd0].
    destruct (before !! t) as [rb|] eqn:Hb;
      [rewrite after_body_skips in Hstep by (right; right; by eexists);
       injection Hstep as <-; by eapply Hd0|].
    rewrite (after_body_added before paths renames t _ ap a_t d0) in Hstep by done.
    injection Hstep as <-.
    apply lookup_insert_Some in He as [[_ <-]|[_ He]]; [|by eapply Hd0].
    rewrite GoIntFacts.sub_exact; [simpl; lia|].
    unfold GoInt.is_int in *.
    change GoInt.int_min with (-9223372036854775808) in *.
    change GoInt.int_max with 9223372036854775807 in *. lia.
Qed.

Lemma entries_bound_delta_witness :
  let before : ResultSet := {[ "a.html" := [5; 10]; "gone.html" := [1; 1] ]} in
  let after : ResultSet := {[ "a.html" := [2; 12]; "b.html" := [3; 4] ]} in
  let filter := mkDiffFilterParam true true true true in
  let d : DiffResult :=
    {[ "a.html" := [0; 5; 2]; "gone.html" := [0; 0; -1]; "b.html" := [3; 1; 4] ]} in
  GetResultsDiff before after filter None None = Some d
  ∧ entry_ok [0; 5; 2].
Proof.
  intros before after filter d.
  assert (Hrun : GetResultsDiff before after filter None None = Some d)
    by (vm_compute; reflexivity).
  split; [exact Hrun|].
  apply (entries_bound_delta before after filter None None
           (map_to_list before) (map_to_list after) d "a.html" [0; 5; 2]).
  - apply (bool_decide_unpack _). vm_compute. exact I.
  - apply (bool_decide_unpack _). vm_compute. exact I.
  - apply iteration_order_map_to_list.
  - apply iteration_order_map_to_list.
  - exact Hrun.
  - vm_compute. reflexivity.
Defined.

Lemma no_renames_identity renames test :
  renames = None ∨ renames = Some ∅ →
  renamed_test renames test = test ∧ is_rename_target renames test = false.
Proof.
  intros [-> | ->]; [done|]. unfold renamed_test, is_rename_target.
  by rewrite lookup_empty, map_to_list_empty.
Qed.

(** Without renames the diff has, under every name in scope, the entry
    that [diff_entry] computes from what the two sets have under that
    name, and nothing under the other names. *)
Lemma GetResultsDiff_in_lookup before after filter paths renames ob oa d key :
  structurally_valid before → structurally_valid after →
  renames = None ∨ renames = Some ∅ →
  iteration_order before ob → iteration_order after oa →
  GetResultsDiff_in before after filter paths renames ob oa = Some d →
  d !! key = if anyPathMatches paths key
             then diff_entry filter (before !! key) (after !! key)
             else None.
Proof.
  intros Hvb Hva Hrn Hob Hoa Hrun.
  assert (Hid : ∀ t, renamed_test renames t = t)
    by (intros t; by apply no_renames_identity).
  assert (Hnt : ∀ t, is_rename_target renames t = false)
    by (intros t; by apply no_renames_identity).
  destruct (before !! key) as [rb|] eqn:Hb.
  - assert (Hsole : sole_source before renames key).
    { intros t v _ Hne. by rewrite !Hid. }
    pose proof (GetResultsDiff_in_before_key before after filter paths renames
                  ob oa key rb d Hob Hb Hsole Hrun) as Hkey.
    rewrite Hid in Hkey.
    pose proof (Hvb key rb Hb) as Hlen.
    destruct rb as [|b0 [|b1 rb]]; simpl in Hlen; [lia..|].
    destruct (after !! key) as [ra|] eqn:Ha.
    + pose proof (Hva key ra Ha) as Hlen'.
      destruct ra as [|a0 [|a1 ra]]; simpl in Hlen'; [lia..|].
      cbn [diff_entry].
      destruct (Deleted filter || Changed filter); cbn [andb];
        [|by destruct (anyPathMatches paths key)].
      destruct Hkey as (d0 & d1 & Hd0 & Hd1 & ->).
      destruct (anyPathMatches paths key) eqn:Hm.
      * rewrite (before_body_present_delta after filter paths renames key
                   _ _ b0 b1 a0 a1 d0) in Hd1 by (by rewrite ?Hid).
        injection Hd1 as <-. rewrite Hid.
        destruct (_ || _); [by rewrite lookup_insert_eq|done].
      * rewrite before_body_out_of_scope in Hd1 by (by rewrite Hid).
        by injection Hd1 as <-.
    + cbn [diff_entry].
      destruct (Deleted filter) eqn:HD.
      * cbn [orb] in Hkey. destruct Hkey as (d0 & d1 & Hd0 & Hd1 & ->).
        destruct (anyPathMatches paths key) eqn:Hm.
        -- rewrite (before_body_absent after filter paths renames key _ b1 d0)
             in Hd1 by (by rewrite ?Hid).
           injection Hd1 as <-. by rewrite HD, Hid, lookup_insert_eq.
        -- rewrite before_body_out_of_scope in Hd1 by (by rewrite Hid).
           by injection Hd1 as <-.
      * destruct (false || Changed filter);
          [|by destruct (anyPathMatches paths key)].
        destruct Hkey as (d0 & d1 & Hd0 & Hd1 & ->).
        destruct (anyPathMatches paths key) eqn:Hm.
        -- rewrite (before_body_absent after filter paths renames key _ b1 d0)
             in Hd1 by (by rewrite ?Hid).
           injection Hd1 as <-. by rewrite HD.
        -- rewrite before_body_out_of_scope in Hd1 by (by rewrite Hid).
           by injection Hd1 as <-.
  - destruct (after !! key) as [ra|] eqn:Ha.
    + pose proof (GetResultsDiff_in_after_key before after filter paths renames
                    ob oa key ra d Hob Hoa Ha (Hnt key) Hb Hrun) as Hkey.
      pose proof (Hva key ra Ha) as Hlen.
      destruct ra as [|a0 [|a1 ra]]; simpl in Hlen; [lia..|].
      cbn [diff_entry].
      destruct (Added filter); [|by destruct (anyPathMatches paths key)].
      destruct Hkey as (d0 & d1 & Hd0 & Hd1 & ->).
      destruct (anyPathMatches paths key) eqn:Hm.
      * rewrite (after_body_added before paths renames key _ a0 a1 d0) in Hd1
          by done.
        injection Hd1 as <-. by rewrite lookup_insert_eq.
      * rewrite after_body_skips in Hd1 by (right; by left).
        by injection Hd1 as <-.
    + cbn [diff_entry].
      assert (Hnone : d !! key = None).
      { apply eq_None_not_Some. intros Hsome.
        destruct (GetResultsDiff_in_keys before after filter paths renames
                    ob oa d key Hrun Hsome)
          as [_ [(t & v & Hin & Ht)|(v & Hin & _)]].
        - rewrite Hid in Ht. subst t.
          apply (iteration_order_elem_of before ob key v Hob) in Hin. congruence.
        - apply (iteration_order_elem_of after oa key v Hoa) in Hin. congruence. }
      rewrite Hnone. by destruct (anyPathMatches paths key).
Qed.

(** X11: without renames, on structurally valid result sets, the two loops
    compute the diff name by name: it is the merge of [before] and [after]
    by [diff_entry], restricted to the names in scope. *)
Theorem diff_is_keywise_merge before after filter paths renames ob oa :
  structurally_valid before → structurally_valid after →
  renames = None ∨ renames = Some ∅ →
  iteration_order before ob → iteration_order after oa →
  GetResultsDiff_in before after filter paths renames ob oa
  = Some (match paths with
          | None => merge (diff_entry filter) before after
          | Some ps => in_scope ps (merge (diff_entry filter) before after)
          end).
Proof.
  intros Hvb Hva Hrn Hob Hoa.
  destruct (GetResultsDiff_in_is_Some before after filter paths renames ob oa)
    as [d Hrun]; [done..|].
  rewrite Hrun. f_equal. apply map_eq. intros key.
  rewrite (GetResultsDiff_in_lookup before after filter paths renames ob oa d key)
    by done.
  assert (Hmerge : merge (diff_entry filter) before after !! key
                   = diff_entry filter (before !! key) (after !! key)).
  { rewrite lookup_merge. by destruct (before !! key), (after !! key). }
  destruct paths as [ps|]; [|by rewrite Hmerge].
  unfold in_scope. rewrite map_lookup_filter, Hmerge. cbn [fst].
  destruct (diff_entry filter (before !! key) (after !! key)) as [e|];
    cbn [mbind option_bind].
  - destruct (anyPathMatches (Some ps) key) eqn:Hm.
    + by rewrite option_guard_True.
    + rewrite option_guard_False; [done|congruence].
  - by destruct (anyPathMatches (Some ps) key).
Qed.

Lemma diff_is_keywise_merge_witness :
  let before : ResultSet := {[ "a.html" := [5; 10]; "gone.html" := [1; 1] ]} in
  let after : ResultSet := {[ "a.html" := [7; 10]; "b.html" := [3; 4] ]} in
  let filter := mkDiffFilterParam true true true true in
  GetResultsDiff before after filter None None
  = Some (merge (diff_entry filter) before after).
Proof.
  intros before after filter.
  apply (diff_is_keywise_merge before after filter None None).
  - apply (bool_decide_unpack _). vm_compute. exact I.
  - apply (bool_decide_unpack _). vm_compute. exact I.
  - by left.
  - apply iteration_order_map_to_list.
  - apply iteration_order_map_to_list.
Defined.

(** X12: deleting is adding backwards: without renames, the diff with
    only [Deleted] of [before] against [after] has the same names as the
    diff with only [Added] of [after] against [before], and its entry
    [0; 0; -total] is the added entry [passed; failed; total] with the
    counts dropped and the total negated. *)
Theorem deleted_is_added_reversed before after paths renames ob oa :
  structurally_valid before → structurally_valid after →
  renames = None ∨ renames = Some ∅ →
  iteration_order before ob → iteration_order after oa →
  ∃ D A,
    GetResultsDiff_in before after (mkDiffFilterParam false true false false)
      paths renames ob oa = Some D
    ∧ GetResultsDiff_in after before (mkDiffFilterParam true false false false)
        paths renames oa ob = Some A
    ∧ ∀ key, D !! key
             = A !! key ≫= λ e, total ← e !! 2%nat; Some [0; 0; GoInt.neg total].
Proof.
  intros Hvb Hva Hrn Hob Hoa.
  destruct (GetResultsDiff_in_is_Some before after
              (mkDiffFilterParam false true false false) paths renames ob oa)
    as [D HD]; [done..|].
  destruct (GetResultsDiff_in_is_Some after before
              (mkDiffFilterParam true false false false) paths renames oa ob)
    as [A HA]; [done..|].
  exists D, A. split_and!; [done..|]. intros key.
  rewrite (GetResultsDiff_in_lookup before after _ paths renames ob oa D key)
    by done.
  rewrite (GetResultsDiff_in_lookup after before _ paths renames oa ob A key)
    by done.
  destruct (anyPathMatches paths key); [|done].
  pose proof (Hvb key) as Hlb. pose proof (Hva key) as Hla.
  destruct (before !! key) as [rb|]; destruct (after !! key) as [ra|].
  - specialize (Hlb rb eq_refl). specialize (Hla ra eq_refl).
    destruct rb as [|b0 [|b1 rb]]; simpl in Hlb; [lia..|].
    destruct ra as [|a0 [|a1 ra]]; simpl in Hla; [lia..|].
    cbn [diff_entry Added Deleted Changed Unchanged andb orb].
    by rewrite !andb_false_r.
  - specialize (Hlb rb eq_refl).
    destruct rb as [|b0 [|b1 rb]]; simpl in Hlb; [lia..|]. done.
  - specialize (Hla ra eq_refl).
    destruct ra as [|a0 [|a1 ra]]; simpl in Hla; [lia..|]. done.
  - done.
Qed.

Lemma deleted_is_added_reversed_witness :
  let before : ResultSet := {[ "a.html" := [5; 10]; "gone.html" := [1; 4] ]} in
  let after : ResultSet := {[ "a.html" := [7; 10] ]} in
  GetResultsDiff before after (mkDiffFilterParam false true false false) None None
  = Some {[ "gone.html" := [0; 0; -4] ]}
  ∧ GetResultsDiff after before (mkDiffFilterParam true false false false) None None
    = Some {[ "gone.html" := [1; 3; 4] ]}.
Proof.
  intros before after.
  destruct (deleted_is_added_reversed before after None None
              (map_to_list before) (map_to_list after))
    as (D & A & HD & HA & _).
  - apply (bool_decide_unpack _). vm_compute. exact I.
  - apply (bool_decide_unpack _). vm_compute. exact I.
  - by left.
  - apply iteration_order_map_to_list.
  - apply iteration_order_map_to_list.
  - split; vm_compute; reflexivity.
Defined.

Lemma column_sum_delete (i : nat) (m : gmap string (list Z)) k v :
  m !! k = Some v →
  column_sum i m = column_sum i (delete k m) + default 0 (v !! i).
Proof.
  intros Hk. unfold column_sum.
  rewrite (map_fold_delete_L _ 0 k v m); [done| |done].
  intros. lia.
Qed.

Lemma column_sum_empty (i : nat) : column_sum i ∅ = 0.
Proof. unfold column_sum. apply map_fold_empty. Qed.

(** The sum of the deltas of a map that has, under every name, the entry
    of the filter with all four flags, is the total of [after] less the
    total of [before]. *)
Lemma column_sum_deltas (before after : ResultSet) (d : DiffResult) :
  valid_counts before → valid_counts after →
  (∀ key, d !! key
          = diff_entry (mkDiffFilterParam true true true true)
              (before !! key) (after !! key)) →
  column_sum 2 d = column_sum 1 after - column_sum 1 before.
Proof.
  revert after d. induction before as [|k rb before Hk IH] using map_ind;
    intros after d Hvb Hva Hd.
  - clear Hvb. revert d Hd.
    induction after as [|k ra after Hk IH] using map_ind; intros d Hd.
    + assert (d = ∅) as ->.
      { apply map_eq. intros key. by rewrite Hd, !lookup_empty. }
      by rewrite !column_sum_empty.
    + destruct (counts_ok_inv ra) as (ap & a_t & rest & -> & Har & Hap & Hat).
      { apply (Hva k). apply lookup_insert_eq. }
      assert (Hdk : d !! k = Some [ap; GoInt.sub a_t ap; a_t]).
      { by rewrite Hd, lookup_empty, lookup_insert_eq. }
      rewrite (column_sum_delete 2 d k _ Hdk).
      rewrite (column_sum_delete 1 (<[k:=_]> after) k _ (lookup_insert_eq _ _ _)).
      rewrite delete_insert_id by done. rewrite column_sum_empty in *.
      assert (Hva' : valid_counts after).
      { intros key v Hkey. apply (Hva key).
        rewrite lookup_insert_ne; [done|]. intros <-. congruence. }
      rewrite (IH Hva' (delete k d)).
      * simpl. lia.
      * intros key. destruct (decide (key = k)) as [->|Hne].
        -- by rewrite lookup_delete_eq, lookup_empty, Hk.
        -- rewrite lookup_delete_ne by done.
           by rewrite Hd, lookup_insert_ne.
  - destruct (counts_ok_inv rb) as (bp & bt & rest & -> & Hbr & Hbp & Hbt).
    { apply (Hvb k). apply lookup_insert_eq. }
    assert (Hvb' : valid_counts before).
    { intros key v Hkey. apply (Hvb key).
      rewrite lookup_insert_ne; [done|]. intros <-. congruence. }
    rewrite (column_sum_delete 1 (<[k:=_]> before) k _ (lookup_insert_eq _ _ _)).
    rewrite delete_insert_id by done.
    assert (Hrest : ∀ key, delete k d !! key
              = diff_entry (mkDiffFilterParam true true true true)
                  (before !! key) (delete k after !! key)).
    { intros key. destruct (decide (key = k)) as [->|Hne].
      - by rewrite !lookup_delete_eq, Hk.
      - rewrite !lookup_delete_ne by done. by rewrite Hd, lookup_insert_ne. }
    assert (Hva' : valid_counts (delete k after)).
    { intros key v Hkey. apply lookup_delete_Some in Hkey as [_ Hkey].
      by apply (Hva key). }
    pose proof (IH (delete k after) (delete k d) Hvb' Hva' Hrest) as Hsum.
    specialize (Hd k). rewrite lookup_insert_eq in Hd.
    destruct (after !! k) as [ra|] eqn:Ha.
    + destruct (counts_ok_inv ra (Hva k ra Ha))
        as (ap & a_t & rest' & -> & Har & Hap & Hat).
      cbn [diff_entry Added Deleted Changed Unchanged andb orb] in Hd.
      rewrite !andb_true_r in Hd.
      rewrite orb_negb_r in Hd.
      rewrite (column_sum_delete 2 d k _ Hd).
      rewrite (column_sum_delete 1 after k _ Ha). rewrite Hsum.
      destruct (GoIntFacts.counts_exact bp bt ap a_t) as (_ & _ & ->); [done..|].
      simpl. lia.
    + cbn [diff_entry Deleted] in Hd.
      rewrite (column_sum_delete 2 d k _ Hd).
      rewrite (delete_id after k Ha) in Hsum. rewrite Hsum.
      rewrite GoIntFacts.neg_exact; [simpl; lia|done|].
      change GoInt.int_min with (-9223372036854775808). lia.
Qed.

(** X13: the deltas add up: for result sets whose counts satisfy
    0 ≤ passed ≤ total, without renames and without scope, the third
    elements of the diff under the filter with all four flags sum to the
    total of [after] less the total of [before]. *)
Theorem deltas_sum_to_total_change before after renames ob oa :
  valid_counts before → valid_counts after →
  renames = None ∨ renames = Some ∅ →
  iteration_order before ob → iteration_order after oa →
  ∃ d, GetResultsDiff_in before after (mkDiffFilterParam true true true true)
         None renames ob oa = Some d
       ∧ column_sum 2 d = column_sum 1 after - column_sum 1 before.
Proof.
  intros Hvb Hva Hrn Hob Hoa.
  pose proof (valid_counts_structurally_valid before Hvb) as Hsb.
  pose proof (valid_counts_structurally_valid after Hva) as Hsa.
  destruct (GetResultsDiff_in_is_Some before after
              (mkDiffFilterParam true true true true) None renames ob oa)
    as [d Hrun]; [done..|].
  exists d. split; [done|].
  apply column_sum_deltas; [done..|]. intros key.
  by rewrite (GetResultsDiff_in_lookup before after
                (mkDiffFilterParam true true true true) None renames ob oa d key).
Qed.

Lemma deltas_sum_to_total_change_witness :
  let before : ResultSet := {[ "a.html" := [5; 10]; "gone.html" := [1; 4] ]} in
  let after : ResultSet := {[ "a.html" := [7; 12]; "b.html" := [3; 3] ]} in
  ∃ d, GetResultsDiff before after (mkDiffFilterParam true true true true) None None
       = Some d
       ∧ column_sum 2 d = column_sum 1 after - column_sum 1 before.
Proof.
  intros before after.
  apply (deltas_sum_to_total_change before after None).
  - apply (bool_decide_unpack _). vm_compute. exact I.
  - apply (bool_decide_unpack _). vm_compute. exact I.
  - by left.
  - apply iteration_order_map_to_list.
  - apply iteration_order_map_to_list.
Defined.

Lemma string_app_assoc (s1 s2 s3 : string) :
  (s1 +:+ s2) +:+ s3 = s1 +:+ (s2 +:+ s3).
Proof.
  induction s1 as [|a s1 IH]; [reflexivity|].
  change (String a ((s1 +:+ s2) +:+ s3) = String a (s1 +:+ (s2 +:+ s3))).
  by f_equal.
Qed.

(** X14: the path matcher answers the same in whatever order the set's
    iterator yields the prefixes; a larger scope matches every path a
    smaller one matches; a path that is matched stays matched when it is
    extended; a scope that has the empty string matches every path. *)
Theorem anyPathMatches_closure (ps ps' : gset string) (testPath suffix : string) :
  (∀ elems, elems ≡ₚ elements ps →
     anyPathMatches_iter elems testPath = anyPathMatches (Some ps) testPath)
  ∧ (ps ⊆ ps' → anyPathMatches (Some ps) testPath = true →
     anyPathMatches (Some ps') testPath = true)
  ∧ (anyPathMatches (Some ps) testPath = true →
     anyPathMatches (Some ps) (testPath +:+ suffix) = true)
  ∧ ("" ∈ ps → anyPathMatches (Some ps) testPath = true).
Proof.
  split_and!.
  - intros elems Hperm. by apply anyPathMatches_iter_order.
  - intros Hsub. rewrite !anyPathMatches_Some.
    intros (p & Hin & Hp). exists p. split; [by apply Hsub|done].
  - rewrite !anyPathMatches_Some. intros (p & Hin & rest & ->).
    exists p. split; [done|]. exists (rest +:+ suffix).
    apply string_app_assoc.
  - intros Hin. apply anyPathMatches_Some. exists "". split; [done|].
    by exists testPath.
Qed.

Lemma anyPathMatches_closure_witness :
  anyPathMatches_iter ["/dom/"; "/css/"] "/css/a.html"
  = anyPathMatches (Some {[ "/css/"; "/dom/" ]}) "/css/a.html"
  ∧ anyPathMatches (Some {[ "/css/"; "/dom/" ]}) "/css/a.html" = true
  ∧ anyPathMatches (Some {[ "/css/" ]}) ("/css/a.html" +:+ "?x") = true
  ∧ anyPathMatches (Some {[ ""; "/dom/" ]}) "/css/a.html" = true.
Proof.
  split_and!.
  - apply (proj1 (anyPathMatches_closure {[ "/css/"; "/dom/" ]} ∅ "/css/a.html" "")).
    assert (Hl : elements ({[ "/css/"; "/dom/" ]} : gset string) = ["/dom/"; "/css/"]
                 ∨ elements ({[ "/css/"; "/dom/" ]} : gset string) = ["/css/"; "/dom/"])
      by (vm_compute; auto).
    destruct Hl as [-> | ->]; [reflexivity|apply perm_swap].
  - apply (proj1 (proj2 (anyPathMatches_closure {[ "/css/" ]} {[ "/css/"; "/dom/" ]}
                           "/css/a.html" ""))).
    + apply (bool_decide_unpack _). vm_compute. exact I.
    + vm_compute. reflexivity.
  - apply (proj1 (proj2 (proj2 (anyPathMatches_closure {[ "/css/" ]} ∅
                                  "/css/a.html" "?x")))).
    vm_compute. reflexivity.
  - apply (proj2 (proj2 (proj2 (anyPathMatches_closure {[ ""; "/dom/" ]} ∅
                                  "/css/a.html" "")))).
    apply (bool_decide_unpack _). vm_compute. exact I.
Defined.

(** X15: [abs] on an [int] is [max] of the value and its negation.  It is
    the absolute value for every [int] but the least one, which it returns
    unchanged: the one input for which [abs] is negative. *)
Theorem abs_spec (x : Z) :
  GoInt.is_int x →
  abs x = max x (GoInt.neg x)
  ∧ GoInt.is_int (abs x)
  ∧ (x ≠ GoInt.int_min → abs x = Z.abs x)
  ∧ (abs x < 0 ↔ x = GoInt.int_min).
Proof.
  intros Hx. destruct (decide (x = GoInt.int_min)) as [->|Hne].
  - split_and!; [reflexivity|done|done|]. split; [done|]. intros _. reflexivity.
  - pose proof (GoIntFacts.neg_exact x Hx Hne) as Hneg.
    unfold abs, max. rewrite Hneg.
    unfold GoInt.is_int in *.
    change GoInt.int_min with (-9223372036854775808) in *.
    change GoInt.int_max with 9223372036854775807 in *.
    repeat case_bool_decide; split_and!; try lia.
Qed.

Lemma abs_spec_witness :
  abs (-7) = max (-7) (GoInt.neg (-7))
  ∧ GoInt.is_int (abs (-7))
  ∧ (-7 ≠ GoInt.int_min → abs (-7) = Z.abs (-7))
  ∧ (abs (-7) < 0 ↔ -7 = GoInt.int_min).
Proof.
  apply abs_spec. unfold GoInt.is_int.
  change GoInt.int_min with (-9223372036854775808).
  change GoInt.int_max with 9223372036854775807. lia.
Defined.

End Coverage.
